(** * gohan: transaction contract and the sync bridge of the otto extension

    A shallow embedding of
    - [db/transaction/transaction.go]: the isolation [Type] constants,
      [GetIsolationLevel] and [IDFilter];
    - the otto sync extension: [convertSyncEvent], [convertSyncNode],
      [gohan_sync_fetch] and [gohan_sync_watch], with the Go channels the
      latter creates and the goroutine it starts.

    Go values of static type [interface{}] are modelled by [iface], a tagged
    union that keeps the dynamic type; Go maps by stdpp's [gmap]; [int64]
    by [Z] with the wrap-around written out. *)

From Stdlib Require Import ZArith QArith Ascii Lia.
From stdpp Require Import gmap strings list fin_maps.

Set Warnings "-register-all".
#[local] Open Scope Z_scope.

(** ** Go runtime values *)

Module golang.

(** A value stored in an [interface{}]: the constructor is the dynamic type.
    [GoType] is the dynamic type [transaction.Type], a named string type,
    which is a different dynamic type from plain [string]. *)
Inductive iface : Type :=
| Nil
| GoBool (b : bool)
| GoInt64 (z : Z)
| GoString (s : string)
| GoType (t : string)
| GoMap (m : gmap string iface)
| GoSlice (l : list iface).

(** Result of a computation that may panic (a failed type assertion, a nil
    dereference). *)
Inductive result (A : Type) : Type :=
| Ok (a : A)
| Panic (msg : string).
Arguments Ok {A} a.
Arguments Panic {A} msg.

(** Two's-complement wrap-around of [int64] arithmetic. *)
Definition wrap64 (z : Z) : Z := (z + 2 ^ 63) mod 2 ^ 64 - 2 ^ 63.

(** Sending on a buffered channel of capacity [cap] whose buffer holds
    [buf]: [None] when the buffer is full and the sender has to block. *)
Definition chan_send {A : Type} (cap : nat) (buf : list A) (x : A)
  : option (list A) :=
  if (List.length buf <? cap)%nat then Some (buf ++ [x]) else None.

(** Receiving from a buffered channel: the oldest element, FIFO. *)
Definition chan_recv {A : Type} (buf : list A) : option (A * list A) :=
  match buf with
  | x :: rest => Some (x, rest)
  | [] => None
  end.

(** [strings.ToUpper] on ASCII letters. *)
Definition upper_ascii (c : ascii) : ascii :=
  let n := nat_of_ascii c in
  if ((97 <=? n) && (n <=? 122))%nat then ascii_of_nat (n - 32) else c.

Fixpoint ToUpper (s : string) : string :=
  match s with
  | EmptyString => EmptyString
  | String c rest => String (upper_ascii c) (ToUpper rest)
  end.

End golang.

(** ** db/transaction/transaction.go *)

Module transaction.
Import golang.

(** [type Type string] *)
Definition Type_ : Type := string.

(** [type Filter map[string]interface{}] *)
Abbreviation Filter := (gmap string iface).

Definition ReadUncommited : Type_ := "READ UNCOMMITTED".
Definition ReadCommited : Type_ := "READ COMMITTED".
Definition RepeatableRead : Type_ := "REPEATABLE READ".
Definition Serializable : Type_ := "Serializable".

Inductive LockPolicy : Set :=
| LockRelatedResources
| SkipRelatedResources.

(** [iota] numbering of the lock policies. *)
Definition LockPolicy_value (p : LockPolicy) : Z :=
  match p with
  | LockRelatedResources => 0
  | SkipRelatedResources => 1
  end.

Record ResourceState : Type := {
  ConfigVersion : Z;
  StateVersion : Z;
  Error : string;
  State : string;
  Monitoring : string
}.

(** The part of [schema.Schema] that this package reads: the per-action
    isolation overrides, a [map[string]interface{}] (the type assertion in
    [GetIsolationLevel] requires an interface element type). *)
Record Schema : Type := {
  IsolationLevel : gmap string iface
}.

(** The single-value type assertion [level.(Type)]: it panics unless the
    dynamic type of [level] is [Type]. *)
Definition assert_Type (level : iface) : result Type_ :=
  match level with
  | GoType t => Ok t
  | _ => Panic "interface conversion: interface {} is not transaction.Type"
  end.

Definition GetIsolationLevel (s : Schema) (action : string) : result Type_ :=
  match IsolationLevel s !! action with
  | None =>
      if String.eqb action "read" then Ok RepeatableRead else Ok Serializable
  | Some level => assert_Type level
  end.

Definition IDFilter (ID : iface) : Filter := {[ "id" := ID ]}.

(** Two schemas for the examples: the override of "read" held as a plain
    string, as a YAML or JSON document yields it, and held as a [Type]. *)
Definition schema_with_string_override : Schema :=
  {| IsolationLevel := {[ "read" := GoString "READ COMMITTED" ]} |}.

Definition schema_with_override : Schema :=
  {| IsolationLevel := {[ "read" := GoType ReadCommited ]} |}.

Definition schema_without_override : Schema :=
  {| IsolationLevel := ∅ |}.

End transaction.

(** ** The sync package, as the otto extension uses it *)

Module sync.
Import golang.

(** [sync.Event]: the four fields [convertSyncEvent] reads. *)
Record Event : Type := {
  Action : string;
  Key : string;
  Data : iface;
  Revision : Z
}.

(** [sync.Node]: the four fields [convertSyncNode] reads. *)
Inductive Node : Type :=
| mkNode (NodeKey : string) (NodeValue : string) (NodeRevision : Z)
         (Children : list Node).

(** Modelled from the spec: [Sync.Watch] is not part of the sources at hand.
    A watch on [path] started at [revision] subscribes to the mutations
    under [path] whose [Revision] is greater than [revision]. *)
Definition Watch_selects (path : string) (revision : Z) (e : Event) : bool :=
  String.prefix path (Key e) && (revision <? Revision e).

Definition later_than (revision : Z) (e : Event) : Prop :=
  revision < Revision e.

(** Modelled from the spec: the events [Sync.Watch] streams into its sink
    for a sequence of mutations, one per selected mutation, in the order
    of the mutations. *)
Definition Watch_stream (path : string) (revision : Z) (mutations : list Event)
  : list Event :=
  List.filter (Watch_selects path revision) mutations.

(** Modelled from the spec: the hand-off of one event from the event source
    into the sink does not block. With a free slot it is the channel send;
    on a saturated buffer the event is dropped. *)
Definition hand_off (cap : nat) (buf : list Event) (e : Event) : list Event :=
  match chan_send cap buf e with
  | Some buf' => buf'
  | None => buf
  end.

(** What reaches a running [Sync.Watch] from outside: a mutation of the
    tree, a failure of the coordination link, and the moment it looks at
    its stop signal. *)
Inductive WatchInput : Type :=
| Mutation (e : Event)
| LinkFailure (err : string)
| StopNoticed.

Inductive WatchDoes : Type :=
| HandsOff (e : Event)
| ReturnsError (err : string)
| ReturnsNil (rest : list bool)
| Nothing.

(** Modelled from the spec: [Sync.Watch] is not part of the sources at hand.
    While it runs it hands off the mutations it selects, returns the error
    when the link fails, and returns nil once it has received the stop
    signal from [stopChan]. *)
Definition Watch_reacts (path : string) (revision : Z) (stopChan : list bool)
    (i : WatchInput) : WatchDoes :=
  match i with
  | Mutation e => if Watch_selects path revision e then HandsOff e else Nothing
  | LinkFailure err => ReturnsError err
  | StopNoticed =>
      match chan_recv stopChan with
      | Some (_, rest) => ReturnsNil rest
      | None => Nothing
      end
  end.

End sync.

(** ** The otto extension: script values, call arguments, exceptions *)

Module otto.
Import golang sync.

(** [otto.Value], as far as the two builtins look at it. *)
Inductive Value : Type :=
| UndefinedValue
| NullValue
| BooleanValue (b : bool)
| NumberValue (q : Q)
| StringValue (s : string)
| ObjectValue (o : gmap string iface).

(** [otto.FunctionCall]: the argument list the script passed. *)
Record FunctionCall : Type := {
  ArgumentList : list Value
}.

(** [call.Argument(i)]: otto yields undefined past the end of the list. *)
Definition Argument (call : FunctionCall) (i : nat) : Value :=
  nth i (ArgumentList call) UndefinedValue.

(** What is received from [call.Otto.Interrupt] is a [func()]; running it
    either returns or panics (the usual way to halt the interpreter). *)
Inductive Interrupt : Type :=
| InterruptReturns
| InterruptPanics (msg : string).

(** How a builtin ends. [Throw] is the script exception raised by
    [ThrowOttoException], which a script can catch; [GoPanic] is any other
    panic; [Blocked] is a goroutine that never proceeds. *)
Inductive Outcome : Type :=
| Return (v : Value)
| Throw (msg : string)
| GoPanic (msg : string)
| Blocked.

(** The part of [Environment] the builtins use. [ToValue] is [env.VM.ToValue]
    on a Go map; the message format of the arity check is a constant that is
    declared outside the sources at hand. *)
Record Environment : Type := {
  ToValue : gmap string iface -> Value + string;
  wrongArgumentsNumberErrorMessage : string -> nat -> nat -> string
}.

(** Exception monad of a builtin body: [inr o] ends the call with [o]. *)
Definition M (A : Type) : Type := A + Outcome.

Definition ret {A : Type} (a : A) : M A := inl a.

Definition bind {A B : Type} (m : M A) (k : A -> M B) : M B :=
  match m with
  | inl a => k a
  | inr o => inr o
  end.

Notation "'do' x <- m ; k" := (bind m (fun x => k))
  (at level 10, x pattern, m at level 100, k at level 200).

(** Modelled from the spec: [ThrowOttoException] is not part of the sources
    at hand. It raises an error the script can catch, and does not return
    (the [return otto.NullValue()] the callers write after it is dead). *)
Definition ThrowOttoException {A : Type} (msg : string) : M A :=
  inr (Throw msg).

(** Modelled from the spec: [VerifyCallArguments] is not part of the sources
    at hand. An arity mismatch is an error raised to the caller. *)
Definition VerifyCallArguments (env : Environment) (call : FunctionCall)
    (functionName : string) (expectedArgumentsCount : nat) : M unit :=
  if (List.length (ArgumentList call) =? expectedArgumentsCount)%nat
  then ret tt
  else ThrowOttoException
         (wrongArgumentsNumberErrorMessage env functionName
            expectedArgumentsCount (List.length (ArgumentList call))).

(** Modelled from the spec: [GetString] is not part of the sources at hand.
    It succeeds on a script string and on nothing else. *)
Definition GetString (v : Value) : string + string :=
  match v with
  | StringValue s => inl s
  | _ => inr "not a string"
  end.

(** Modelled from the spec: [GetInt64] is not part of the sources at hand.
    It succeeds on a script number that is an integer in the range of
    [int64], and on nothing else. *)
Definition GetInt64 (v : Value) : Z + string :=
  match v with
  | NumberValue q =>
      if (Qnum q mod Zpos (Qden q) =? 0)
         && (- 2 ^ 63 <=? Qnum q / Zpos (Qden q))
         && (Qnum q / Zpos (Qden q) <? 2 ^ 63)
      then inl (Qnum q / Zpos (Qden q))
      else inr "not an int64"
  | _ => inr "not an int64"
  end.

(** [convertSyncEvent] *)
Definition convertSyncEvent (event : Event) : gmap string iface :=
  <["revision" := GoInt64 (Revision event)]>
  (<["data" := Data event]>
  (<["key" := GoString (Key event)]>
  (<["action" := GoString (Action event)]> ∅))).

(** [convertSyncNode] and [convertSyncNodes]: the loop over the children is
    the [map] of the nested fixpoint. *)
Fixpoint convertSyncNode (node : Node) : gmap string iface :=
  match node with
  | mkNode key value revision children =>
      <["children" :=
          GoSlice (List.map (fun c => GoMap (convertSyncNode c)) children)]>
      (<["revision" := GoInt64 revision]>
      (<["value" := GoString value]>
      (<["key" := GoString key]> ∅)))
  end.

Definition convertSyncNodes (nodes : list Node) : list (gmap string iface) :=
  List.map convertSyncNode nodes.

(** Network and store interactions a builtin dispatches. *)
Inductive IO : Type :=
| SyncFetch (path : string)
| SyncWatch (path : string) (revision : Z).

(** *** gohan_sync_fetch *)

(** What [env.Sync.Fetch] hands back: [(node, err)], either of them nil. *)
Record Fetched : Type := {
  node : option Node;
  err : option string
}.

(** The [select] of [gohan_sync_fetch]. On the interrupt case the shared
    variables [node] and [err] hold what the goroutine has written so far:
    nothing ([None]) or its result. *)
Inductive FetchSelect : Type :=
| FetchInterrupt (interrupt : Interrupt) (written : option Fetched)
| FetchDone (fetched : Fetched).

(** How a builtin call ends, and the interactions it dispatched. *)
Record FetchResult : Type := {
  fetch_outcome : Outcome;
  fetch_dispatched : list IO
}.

Definition fetch_arguments (env : Environment) (call : FunctionCall)
  : M string :=
  do _ <- VerifyCallArguments env call "gohan_sync_fetch" 1;
  match GetString (Argument call 0) with
  | inl path => ret path
  | inr _ =>
      ThrowOttoException "Invalid type of first argument: expected a string"
  end.

(** The statements after the [select]. *)
Definition fetch_finish (env : Environment) (f : Fetched) : Outcome :=
  match err f with
  | Some e => Throw ("Failed to fetch sync: " +:+ e)
  | None =>
      match node f with
      | None => GoPanic "invalid memory address or nil pointer dereference"
      | Some n =>
          match ToValue env (convertSyncNode n) with
          | inl value => Return value
          | inr _ => Return NullValue
          end
      end
  end.

Definition gohan_sync_fetch (env : Environment) (call : FunctionCall)
    (sel : FetchSelect) : FetchResult :=
  match fetch_arguments env call with
  | inr o => {| fetch_outcome := o; fetch_dispatched := [] |}
  | inl path =>
      let dispatched := [SyncFetch path] in
      match sel with
      | FetchInterrupt (InterruptPanics msg) _ =>
          {| fetch_outcome := GoPanic msg; fetch_dispatched := dispatched |}
      | FetchInterrupt InterruptReturns written =>
          {| fetch_outcome :=
               fetch_finish env
                 (default {| node := None; err := None |} written);
             fetch_dispatched := dispatched |}
      | FetchDone fetched =>
          {| fetch_outcome := fetch_finish env fetched;
             fetch_dispatched := dispatched |}
      end
  end.

(** *** gohan_sync_watch *)

(** The goroutine started by [gohan_sync_watch]. [errorChan] is unbuffered,
    so a send on it is a state of the sender: [SendingError] is the goroutine
    blocked in [errorChan <- err] until somebody receives. *)
Inductive Worker : Type :=
| Watching
| SendingError (err : string)
| Exited.

(** The three channels of one call, the goroutine, the timer of the
    [select] and the interrupt channel of the interpreter. *)
Record WatchState : Type := {
  watch_path : string;
  watch_revision : Z;
  eventChan : list Event;
  stopChan : list bool;
  worker : Worker;
  timer : Z;
  elapsed : Z;
  interruptChan : option Interrupt
}.

Definition eventChan_cap : nat := 32.
Definition stopChan_cap : nat := 1.

(** [time.Duration(timeoutMsec) * time.Millisecond], in nanoseconds. *)
Definition timer_duration (timeoutMsec : Z) : Z :=
  wrap64 (timeoutMsec * 1000000).

(** The state after the three [make]s and the [go] statement. *)
Definition watch_start (path : string) (timeoutMsec revision : Z)
  : WatchState :=
  {| watch_path := path;
     watch_revision := revision;
     eventChan := [];
     stopChan := [];
     worker := Watching;
     timer := timer_duration timeoutMsec;
     elapsed := 0;
     interruptChan := None |}.

(** What happens around the call while it waits, and after it has
    returned. *)
Inductive EnvAction : Type :=
| Subscription (i : WatchInput)
| Tick (ns : N)
| InterruptArrives (i : Interrupt).

Definition set_eventChan (buf : list Event) (st : WatchState) : WatchState :=
  {| watch_path := watch_path st; watch_revision := watch_revision st;
     eventChan := buf; stopChan := stopChan st; worker := worker st;
     timer := timer st; elapsed := elapsed st;
     interruptChan := interruptChan st |}.

Definition set_stopChan (buf : list bool) (st : WatchState) : WatchState :=
  {| watch_path := watch_path st; watch_revision := watch_revision st;
     eventChan := eventChan st; stopChan := buf; worker := worker st;
     timer := timer st; elapsed := elapsed st;
     interruptChan := interruptChan st |}.

Definition set_worker (w : Worker) (st : WatchState) : WatchState :=
  {| watch_path := watch_path st; watch_revision := watch_revision st;
     eventChan := eventChan st; stopChan := stopChan st; worker := w;
     timer := timer st; elapsed := elapsed st;
     interruptChan := interruptChan st |}.

Definition set_elapsed (t : Z) (st : WatchState) : WatchState :=
  {| watch_path := watch_path st; watch_revision := watch_revision st;
     eventChan := eventChan st; stopChan := stopChan st; worker := worker st;
     timer := timer st; elapsed := t;
     interruptChan := interruptChan st |}.

Definition set_interruptChan (i : option Interrupt) (st : WatchState)
  : WatchState :=
  {| watch_path := watch_path st; watch_revision := watch_revision st;
     eventChan := eventChan st; stopChan := stopChan st; worker := worker st;
     timer := timer st; elapsed := elapsed st;
     interruptChan := i |}.

(** The goroutine body [if err := env.Sync.Watch(path, eventChan, stopChan,
    revision); err != nil { errorChan <- err }], one observable step at a
    time: while [Sync.Watch] runs its hand-offs land in [eventChan]; when it
    returns an error the goroutine goes on to send it on [errorChan]; when
    it returns nil the goroutine is done. *)
Definition goroutine_step (i : WatchInput) (st : WatchState) : WatchState :=
  match worker st with
  | Watching =>
      match Watch_reacts (watch_path st) (watch_revision st) (stopChan st) i with
      | HandsOff e => set_eventChan (hand_off eventChan_cap (eventChan st) e) st
      | ReturnsError err => set_worker (SendingError err) st
      | ReturnsNil rest => set_worker Exited (set_stopChan rest st)
      | Nothing => st
      end
  | SendingError _ => st
  | Exited => st
  end.

(** One action of the environment. The interrupt channel of the interpreter
    holds one pending interrupt. *)
Definition env_step (a : EnvAction) (st : WatchState) : WatchState :=
  match a with
  | Subscription i => goroutine_step i st
  | Tick ns => set_elapsed (elapsed st + Z.of_N ns) st
  | InterruptArrives i =>
      match interruptChan st with
      | None => set_interruptChan (Some i) st
      | Some _ => st
      end
  end.

Definition run_env (actions : list EnvAction) (st : WatchState) : WatchState :=
  fold_left (fun s a => env_step a s) actions st.

(** The four cases of the [select], in the order of the source. *)
Inductive SelectCase : Type :=
| CaseInterrupt
| CaseEvent
| CaseTimer
| CaseError.

(** The blocking send [stopChan <- true]. *)
Definition send_stop (st : WatchState) : option WatchState :=
  match chan_send stopChan_cap (stopChan st) true with
  | Some buf => Some (set_stopChan buf st)
  | None => None
  end.

(** One case of the [select] taken in state [st], with the statements up to
    the [return]; [None] when that case cannot proceed in [st]. *)
Definition select_watch (env : Environment) (c : SelectCase) (st : WatchState)
  : option (Outcome * WatchState) :=
  match c with
  | CaseInterrupt =>
      match interruptChan st with
      | Some interrupt =>
          match send_stop (set_interruptChan None st) with
          | Some st' =>
              match interrupt with
              | InterruptReturns => Some (Return NullValue, st')
              | InterruptPanics msg => Some (GoPanic msg, st')
              end
          | None => Some (Blocked, set_interruptChan None st)
          end
      | None => None
      end
  | CaseEvent =>
      match chan_recv (eventChan st) with
      | Some (event, rest) =>
          match ToValue env (convertSyncEvent event) with
          | inl value => Some (Return value, set_eventChan rest st)
          | inr _ => Some (Return NullValue, set_eventChan rest st)
          end
      | None => None
      end
  | CaseTimer =>
      if timer st <=? elapsed st then
        match send_stop st with
        | Some st' =>
            match ToValue env ∅ with
            | inl value => Some (Return value, st')
            | inr _ => Some (Return NullValue, st')
            end
        | None => Some (Blocked, st)
        end
      else None
  | CaseError =>
      match worker st with
      | SendingError err =>
          Some (Throw ("Sync watch ex failed: " +:+ err), set_worker Exited st)
      | _ => None
      end
  end.

Definition watch_arguments (env : Environment) (call : FunctionCall)
  : M (string * Z * Z) :=
  do _ <- VerifyCallArguments env call "gohan_sync_watch" 3;
  do path <-
    match GetString (Argument call 0) with
    | inl path => ret path
    | inr _ =>
        ThrowOttoException "Invalid type of first argument: expected a string"
    end;
  do timeoutMsec <-
    match GetInt64 (Argument call 1) with
    | inl timeoutMsec => ret timeoutMsec
    | inr _ =>
        ThrowOttoException "Invalid type of first argument: expected an int64"
    end;
  do revision <-
    match GetInt64 (Argument call 2) with
    | inl revision => ret revision
    | inr _ =>
        ThrowOttoException "Invalid type of first argument: expected an int64"
    end;
  ret (path, timeoutMsec, revision).

(** A burst of mutations, as actions of the environment. *)
Definition burst (es : list Event) : list EnvAction :=
  List.map (fun e => Subscription (Mutation e)) es.

(** One run of the call: what happens before the [select] proceeds, and the
    case it takes. *)
Record Schedule : Type := {
  before : list EnvAction;
  chosen : SelectCase
}.

Record WatchResult : Type := {
  outcome : Outcome;
  dispatched : list IO;
  final : option WatchState
}.

(** [gohan_sync_watch]; [None] when the schedule asks for a case of the
    [select] that cannot proceed. *)
Definition gohan_sync_watch (env : Environment) (call : FunctionCall)
    (sched : Schedule) : option WatchResult :=
  match watch_arguments env call with
  | inr o => Some {| outcome := o; dispatched := []; final := None |}
  | inl (path, timeoutMsec, revision) =>
      let st := run_env (before sched) (watch_start path timeoutMsec revision) in
      match select_watch env (chosen sched) st with
      | Some (o, st') =>
          Some {| outcome := o;
                  dispatched := [SyncWatch path revision];
                  final := Some st' |}
      | None => None
      end
  end.

(** Well-typed argument lists of the two builtins. *)
Definition is_string (v : Value) : bool :=
  match v with
  | StringValue _ => true
  | _ => false
  end.

Definition is_int64 (v : Value) : bool :=
  match v with
  | NumberValue q =>
      (Qnum q mod Zpos (Qden q) =? 0)
      && (- 2 ^ 63 <=? Qnum q / Zpos (Qden q))
      && (Qnum q / Zpos (Qden q) <? 2 ^ 63)
  | _ => false
  end.

Definition well_typed_fetch (call : FunctionCall) : bool :=
  (List.length (ArgumentList call) =? 1)%nat && is_string (Argument call 0).

Definition well_typed_watch (call : FunctionCall) : bool :=
  (List.length (ArgumentList call) =? 3)%nat
  && is_string (Argument call 0)
  && is_int64 (Argument call 1)
  && is_int64 (Argument call 2).

(** What the timeout case and the interrupt case return. *)
Definition timeout_outcome (env : Environment) : Outcome :=
  match ToValue env ∅ with
  | inl value => Return value
  | inr _ => Return NullValue
  end.

Definition interrupt_outcome (i : Interrupt) : Outcome :=
  match i with
  | InterruptReturns => Return NullValue
  | InterruptPanics msg => GoPanic msg
  end.

Definition event_outcome (env : Environment) (event : Event) : Outcome :=
  match ToValue env (convertSyncEvent event) with
  | inl value => Return value
  | inr _ => Return NullValue
  end.

(** *** Concrete values for the examples *)

(** An interpreter whose [ToValue] turns a Go map into the script object
    with the same entries. *)
Definition example_env : Environment :=
  {| ToValue := fun m => inl (ObjectValue m);
     wrongArgumentsNumberErrorMessage :=
       fun functionName _ _ => "wrong number of arguments: " +:+ functionName |}.

Definition watch_call (path : string) (timeoutMsec revision : Z)
  : FunctionCall :=
  {| ArgumentList :=
       [StringValue path; NumberValue (inject_Z timeoutMsec);
        NumberValue (inject_Z revision)] |}.

Definition fetch_call (path : string) : FunctionCall :=
  {| ArgumentList := [StringValue path] |}.

Definition updated (key : string) (revision : Z) : Event :=
  {| Action := "updated"; Key := key; Data := Nil; Revision := revision |}.

End otto.

(** ** The Transaction contract *)

Module contract.
Import golang transaction.

(** Modelled from the spec: [Transaction] is an interface, and none of its
    implementations is part of the sources at hand. This is the contract of
    the specification: the life cycle Open, Committed, Closed ([IsOpen], [IsCommitted], [IsClosed]), the resources
    with their reconciliation state, and the operations with the errors they
    report. *)
Inductive TxError : Set :=
| NotFound
| ConstraintViolation
| LockConflict
| TransactionClosed.

Inductive Lifecycle : Set :=
| IsOpen
| IsCommitted
| IsClosed.

Record Resource : Type := {
  resource_schema : string;
  resource_id : string;
  resource_data : gmap string iface
}.

Record Row : Type := {
  row_resource : Resource;
  row_state : ResourceState
}.

Record Paginator : Type := {
  offset : nat;
  limit : nat
}.

(** What the backing store decides: which resources a filter selects, which
    resources a schema relates to a resource, what a raw query returns, and
    the error of an operation on a committed transaction that is still to
    be closed (the contract only says such an operation needs Open). *)
Record Backend : Type := {
  matches : Filter -> Resource -> bool;
  related : Resource -> list (string * string);
  run_query : list Resource -> string -> list iface -> list Resource;
  committed_error : TxError
}.

Record Tx : Type := {
  lifecycle : Lifecycle;
  isolation : Type_;
  rows : gmap (string * string) Row;
  applied : gmap (string * string) Row;
  locked : gset (string * string)
}.

Definition Begin (level : Type_) (store : gmap (string * string) Row) : Tx :=
  {| lifecycle := IsOpen; isolation := level; rows := store; applied := store;
     locked := ∅ |}.

Inductive Op : Type :=
| Create (r : Resource)
| Update (r : Resource)
| Delete (schema : string) (f : Filter)
| Fetch (schema : string) (f : Filter)
| List (schema : string) (f : Filter) (pg : Paginator)
| LockFetch (schema : string) (f : Filter) (policy : LockPolicy)
| LockList (schema : string) (f : Filter) (pg : Paginator)
    (policy : LockPolicy)
| StateFetch (schema : string) (f : Filter)
| StateUpdate (r : Resource) (s : ResourceState)
| Query (schema : string) (query : string) (args : list iface)
| Commit
| Close.

Inductive Reply : Type :=
| Done
| Failed (e : TxError)
| One (r : Resource)
| Many (l : list Resource) (total : nat)
| StateIs (s : ResourceState).

Definition key_of (r : Resource) : string * string :=
  (resource_schema r, resource_id r).

Definition with_rows (m : gmap (string * string) Row) (tx : Tx) : Tx :=
  {| lifecycle := lifecycle tx; isolation := isolation tx; rows := m;
     applied := applied tx; locked := locked tx |}.

Definition with_locked (l : gset (string * string)) (tx : Tx) : Tx :=
  {| lifecycle := lifecycle tx; isolation := isolation tx; rows := rows tx;
     applied := applied tx; locked := l |}.

(** The rows of [schema] that [f] selects. *)
Definition selected (b : Backend) (schema : string) (f : Filter) (tx : Tx)
  : list Row :=
  List.filter
    (fun row =>
       String.eqb (resource_schema (row_resource row)) schema
       && matches b f (row_resource row))
    (map_to_list (rows tx)).*2.

Definition initial_state : ResourceState :=
  {| ConfigVersion := 1; StateVersion := 0; Error := ""; State := "";
     Monitoring := "" |}.

Definition bump_config (s : ResourceState) : ResourceState :=
  {| ConfigVersion := ConfigVersion s + 1; StateVersion := StateVersion s;
     Error := Error s; State := State s; Monitoring := Monitoring s |}.

(** The observed-state half of a row; [ConfigVersion] stays as it is. *)
Definition report_state (old new : ResourceState) : ResourceState :=
  {| ConfigVersion := ConfigVersion old; StateVersion := StateVersion new;
     Error := Error new; State := State new; Monitoring := Monitoring new |}.

Definition page (pg : Paginator) (l : list Resource) : list Resource :=
  take (limit pg) (drop (offset pg) l).

(** The keys a locking read takes: the selected resources and, when the
    policy says so, the resources related to them, in lexical order of the
    keys as the map lists them. *)
Definition lock_keys (b : Backend) (policy : LockPolicy) (l : list Row)
  : gset (string * string) :=
  match policy with
  | LockRelatedResources =>
      list_to_set
        (List.flat_map
           (fun row => key_of (row_resource row) :: related b (row_resource row))
           l)
  | SkipRelatedResources =>
      list_to_set (List.map (fun row => key_of (row_resource row)) l)
  end.

(** Modelled from the spec: an operation of the [Transaction] interface on
    an open transaction. *)
Definition exec_open (b : Backend) (op : Op) (tx : Tx) : Reply * Tx :=
  match op with
  | Create r =>
      match rows tx !! key_of r with
      | Some _ => (Failed ConstraintViolation, tx)
      | None =>
          (Done,
           with_rows
             (<[key_of r := {| row_resource := r; row_state := initial_state |}]>
                (rows tx)) tx)
      end
  | Update r =>
      match rows tx !! key_of r with
      | None => (Failed NotFound, tx)
      | Some row =>
          (Done,
           with_rows
             (<[key_of r := {| row_resource := r;
                               row_state := bump_config (row_state row) |}]>
                (rows tx)) tx)
      end
  | Delete schema f =>
      match selected b schema f tx with
      | [] => (Failed NotFound, tx)
      | row :: _ => (Done, with_rows (delete (key_of (row_resource row)) (rows tx)) tx)
      end
  | Fetch schema f =>
      match selected b schema f tx with
      | [] => (Failed NotFound, tx)
      | row :: _ => (One (row_resource row), tx)
      end
  | List schema f pg =>
      let l := List.map row_resource (selected b schema f tx) in
      (Many (page pg l) (List.length l), tx)
  | LockFetch schema f policy =>
      match selected b schema f tx with
      | [] => (Failed NotFound, tx)
      | row :: _ =>
          (One (row_resource row),
           with_locked (locked tx ∪ lock_keys b policy [row]) tx)
      end
  | LockList schema f pg policy =>
      let sel := selected b schema f tx in
      let l := List.map row_resource sel in
      (Many (page pg l) (List.length l),
       with_locked (locked tx ∪ lock_keys b policy sel) tx)
  | StateFetch schema f =>
      match selected b schema f tx with
      | [] => (Failed NotFound, tx)
      | row :: _ => (StateIs (row_state row), tx)
      end
  | StateUpdate r s =>
      match rows tx !! key_of r with
      | None => (Failed NotFound, tx)
      | Some row =>
          (Done,
           with_rows
             (<[key_of r := {| row_resource := row_resource row;
                               row_state := report_state (row_state row) s |}]>
                (rows tx)) tx)
      end
  | Query schema query args =>
      let l :=
        run_query b (List.map row_resource (map_to_list (rows tx)).*2)
          query args in
      (Many l (List.length l), tx)
  | Commit =>
      (Done,
       {| lifecycle := IsCommitted; isolation := isolation tx; rows := rows tx;
          applied := rows tx; locked := locked tx |})
  | Close =>
      (Done,
       {| lifecycle := IsClosed; isolation := isolation tx; rows := applied tx;
          applied := applied tx; locked := ∅ |})
  end.

(** Modelled from the spec: an operation of the [Transaction] interface in
    any state of the life cycle. On a closed transaction [Close] succeeds
    and every other operation fails with [TransactionClosed]. *)
Definition exec (b : Backend) (op : Op) (tx : Tx) : Reply * Tx :=
  match lifecycle tx, op with
  | IsOpen, _ => exec_open b op tx
  | IsCommitted, Commit => (Done, tx)
  | IsCommitted, Close =>
      (Done,
       {| lifecycle := IsClosed; isolation := isolation tx; rows := rows tx;
          applied := applied tx; locked := ∅ |})
  | IsCommitted, _ => (Failed (committed_error b), tx)
  | IsClosed, Close => (Done, tx)
  | IsClosed, _ => (Failed TransactionClosed, tx)
  end.

(** Modelled from the spec: [Closed()] reports whether the transaction has
    been released. *)
Definition Closed (tx : Tx) : bool :=
  match lifecycle tx with
  | IsClosed => true
  | _ => false
  end.

Definition run (b : Backend) (ops : list Op) (tx : Tx) : Tx :=
  fold_left (fun t op => (exec b op t).2) ops tx.

(** What an operation replies on a closed transaction. *)
Definition closed_reply (op : Op) : Reply :=
  match op with
  | Close => Done
  | _ => Failed TransactionClosed
  end.

End contract.


(** ** extension/otto/gohan_core.go: require and the loading of NPM modules *)

Module core.
Import golang otto.

(** What the two module loaders are given. [motto_Require] is
    [vm.Require(moduleName, "")] of the motto interpreter, [RequireModule]
    the registry of Go extensions of this package (declared outside the
    sources at hand), and [ToValueOf] is [vm.ToValue] on the raw module. *)
Record Loaders : Type := {
  motto_Require : string -> Value * option string;
  RequireModule : string -> iface + string;
  ToValueOf : iface -> Value + string
}.

(** [requireFromOtto] *)
Definition requireFromOtto (l : Loaders) (moduleName : string)
  : Value * option string :=
  match RequireModule l moduleName with
  | inr errRequire => (UndefinedValue, Some errRequire)
  | inl rawModule =>
      match ToValueOf l rawModule with
      | inr errConvert => (UndefinedValue, Some errConvert)
      | inl module => (module, None)
      end
  end.

(** [requireFromMotto]: the error is logged and handed on with the value. *)
Definition requireFromMotto (l : Loaders) (moduleName : string)
  : Value * option string :=
  motto_Require l moduleName.

(** [require]: NPM modules first, Go extensions second. *)
Definition require (l : Loaders) (moduleName : string)
  : Value * option string :=
  match requireFromMotto l moduleName with
  | (value, None) => (value, None)
  | (_, Some _) => requireFromOtto l moduleName
  end.

(** The builtin "require". [ThrowOttoException] does not return, so the
    statements after it run only without an error. *)
Definition builtin_require (env : Environment) (l : Loaders)
    (call : FunctionCall) : Outcome :=
  match
    (do _ <- VerifyCallArguments env call "require" 1;
     do moduleName <-
       match GetString (Argument call 0) with
       | inl moduleName => ret moduleName
       | inr e => ThrowOttoException e
       end;
     match require l moduleName with
     | (_, Some e) => ThrowOttoException e
     | (value, None) => ret value
     end)
  with
  | inl value => Return value
  | inr o => o
  end.

(** An entry of [ioutil.ReadDir]. *)
Record FileInfo : Type := {
  Name : string;
  IsDir : bool
}.

(** The file system as [loadNPMModules] sees it: the entries of
    [npmPath/node_modules/] (none when the directory cannot be read, the
    error being dropped), [motto.FindFileModule] on a name, and [os.Stat]
    on a path, [None] for an error and otherwise whether it is a
    directory. *)
Record FileSystem : Type := {
  ReadDir : list FileInfo;
  FindFileModule : string -> string + string;
  Stat : string -> option bool
}.

(** [strings.HasPrefix(s, ".")] *)
Definition hidden (name : string) : bool := String.prefix "." name.

(** The inner loop over [entryPointCandidates]: the first candidate that
    exists and is no directory, and the empty string when there is none. *)
Fixpoint firstEntryPoint (fs : FileSystem) (candidates : list string)
  : string :=
  match candidates with
  | [] => ""
  | candidate :: rest =>
      match Stat fs candidate with
      | Some false => candidate
      | _ => firstEntryPoint fs rest
      end
  end.

Definition entryPointCandidates (module : string) : list string :=
  [module; module +:+ ".js"; module +:+ "/index.js"].

(** The loop of [loadNPMModules] over the directory entries; the result
    lists the calls of [motto.AddModule], as the name and the file its
    loader is created from. Both [break]s end the loop. *)
Fixpoint loadModules (fs : FileSystem) (files : list FileInfo)
  : list (string * string) :=
  match files with
  | [] => []
  | f :: rest =>
      if IsDir f && negb (hidden (Name f)) then
        match FindFileModule fs (Name f) with
        | inr _ => []
        | inl module =>
            let entryPoint := firstEntryPoint fs (entryPointCandidates module) in
            if String.eqb entryPoint "" then []
            else (Name f, entryPoint) :: loadModules fs rest
        end
      else loadModules fs rest
  end.

Definition loadNPMModules (fs : FileSystem) : list (string * string) :=
  loadModules fs (ReadDir fs).

End core.

(** ** The cli package: the template commands and the run command *)

Module cli.
Import golang.

(** *** Filters of the swagger templates *)

(** [deleteGohanExtendedProperties]: the loop of [delete]s over the array
    of extended properties. *)
Definition extendedProperties : list string :=
  ["unique"; "permission"; "relation"; "relation_property"; "view";
   "detail_view"; "propertiesOrder"; "on_delete_cascade"; "indexed";
   "relationColumn"].

Definition deleteGohanExtendedProperties (node : gmap string iface)
  : gmap string iface :=
  fold_left (fun n extendedProperty => delete extendedProperty n)
    extendedProperties node.

(** [toSwaggerPath]: [regexp.MustCompile(":([^/]+)")] with
    [ReplaceAllString(i, "{$1}")], as a scan from the left. Outside a match
    a colon followed by a byte other than a slash opens a match; the match
    takes every byte up to the next slash or the end of the string, and is
    replaced by its bytes after the colon between braces. *)
Fixpoint swaggerScan (inMatch : bool) (s : string) : string :=
  match s with
  | EmptyString => if inMatch then "}" else ""
  | String c rest =>
      if inMatch then
        if Ascii.eqb c "/" then String "}" (String "/" (swaggerScan false rest))
        else String c (swaggerScan true rest)
      else if Ascii.eqb c ":" then
        match rest with
        | EmptyString => String ":" (swaggerScan false rest)
        | String d _ =>
            if Ascii.eqb d "/" then String ":" (swaggerScan false rest)
            else String "{" (swaggerScan true rest)
        end
      else String c (swaggerScan false rest)
  end.

Definition toSwaggerPath (i : string) : string := swaggerScan false i.

(** Whether the byte [c] occurs in [s]. *)
Fixpoint hasByte (c : ascii) (s : string) : bool :=
  match s with
  | EmptyString => false
  | String d rest => Ascii.eqb d c || hasByte c rest
  end.

(** [strings.Contains] *)
Fixpoint Contains (s substr : string) : bool :=
  String.prefix substr s
  || match s with
     | EmptyString => false
     | String _ rest => Contains rest substr
     end.

(** [hasIdParam] *)
Definition hasIdParam (i : string) : bool := Contains i ":id".

(** *** Schemas, actions and policies, as the template commands read them *)

(** [schema.Action]: the two fields compared against policies. *)
Record Action : Type := {
  ID : string;
  Method : string
}.

(** [schema.Policy]: [Path] is [policy.Resource.Path.MatchString], the
    compiled expression as the predicate it decides. *)
Record Policy : Type := {
  Principal : string;
  PolicyAction : string;
  Path : string -> bool
}.

(** [schema.Schema]: the fields the template commands read. *)
Record Schema : Type := {
  URL : string;
  Actions : list Action;
  Metadata : gmap string iface
}.

Definition filterPolicies (principal : string) (policies : list Policy)
  : list Policy :=
  List.filter (fun policy => String.eqb (Principal policy) principal) policies.

Definition isMatchingPolicy (action : Action) (policy : Policy) : bool :=
  String.eqb (ID action) (PolicyAction policy)
  || String.eqb (PolicyAction policy) "*"
  || (String.eqb (PolicyAction policy) "read" && String.eqb (Method action) "GET")
  || (String.eqb (PolicyAction policy) "update"
      && String.eqb (Method action) "POST").

Fixpoint canUseAction (action : Action) (policies : list Policy) (url : string)
  : bool :=
  match policies with
  | [] => false
  | policy :: rest =>
      if Path policy url && isMatchingPolicy action policy then true
      else canUseAction action rest url
  end.

Fixpoint hasMatchingPolicy (action : Action) (policies : list Policy) : bool :=
  match policies with
  | [] => false
  | policy :: rest =>
      if String.eqb (ID action) (PolicyAction policy) then true
      else hasMatchingPolicy action rest
  end.

Definition filterActions (schemaToFilter : Schema)
    (nobodyPolicies policies : list Policy) : list Action :=
  List.filter
    (fun action =>
       negb (hasMatchingPolicy action nobodyPolicies)
       && canUseAction action policies (URL schemaToFilter))
    (Actions schemaToFilter).

Fixpoint getMatchingPolicy (schema : Schema) (policies : list Policy)
  : option Policy :=
  match policies with
  | [] => None
  | policy :: rest =>
      if Path policy (URL schema) then Some policy
      else getMatchingPolicy schema rest
  end.

Definition principalNobody : string := "Nobody".

(** The loop of [filterSchemasForPolicy] over the schemas: the copy of a
    schema goes to the first list when the policy matching it is a "read"
    policy and to the second otherwise, with its actions filtered. *)
Fixpoint splitSchemas (matchedPolicies nobodyPolicies : list Policy)
    (schemas : list Schema) : list Schema * list Schema :=
  match schemas with
  | [] => ([], [])
  | schemaOriginal :: rest =>
      let (schemasPolicy, schemasCRUDPolicy) :=
        splitSchemas matchedPolicies nobodyPolicies rest in
      match getMatchingPolicy schemaOriginal matchedPolicies with
      | None => (schemasPolicy, schemasCRUDPolicy)
      | Some policy =>
          let schemaCopy :=
            {| URL := URL schemaOriginal;
               Actions :=
                 filterActions schemaOriginal nobodyPolicies matchedPolicies;
               Metadata := Metadata schemaOriginal |} in
          if String.eqb (PolicyAction policy) "read"
          then (schemaCopy :: schemasPolicy, schemasCRUDPolicy)
          else (schemasPolicy, schemaCopy :: schemasCRUDPolicy)
      end
  end.

Definition filterSchemasForPolicy (principal : string)
    (policies : list Policy) (schemas : list Schema)
  : list Schema * list Schema :=
  let matchedPolicies := filterPolicies principal policies in
  let nobodyPolicies :=
    if String.eqb principal principalNobody then []
    else filterPolicies principalNobody policies in
  splitSchemas matchedPolicies nobodyPolicies schemas.

(** The two policy lists [filterSchemasForPolicy] works with, the copy it
    makes of a schema, and what the first matching policy of a schema says:
    a "read" policy, or another one. *)
Definition matchedPoliciesFor (principal : string) (policies : list Policy)
  : list Policy :=
  filterPolicies principal policies.

Definition nobodyPoliciesFor (principal : string) (policies : list Policy)
  : list Policy :=
  if String.eqb principal principalNobody then []
  else filterPolicies principalNobody policies.

Definition schemaCopyFor (principal : string) (policies : list Policy)
    (schemaOriginal : Schema) : Schema :=
  {| URL := URL schemaOriginal;
     Actions :=
       filterActions schemaOriginal (nobodyPoliciesFor principal policies)
         (matchedPoliciesFor principal policies);
     Metadata := Metadata schemaOriginal |}.

Definition decidedRead (matchedPolicies : list Policy) (schema : Schema)
  : bool :=
  match getMatchingPolicy schema matchedPolicies with
  | Some policy => String.eqb (PolicyAction policy) "read"
  | None => false
  end.

Definition decidedOther (matchedPolicies : list Policy) (schema : Schema)
  : bool :=
  match getMatchingPolicy schema matchedPolicies with
  | Some policy => negb (String.eqb (PolicyAction policy) "read")
  | None => false
  end.

(** [metadata, _ := schema.Metadata["resource_group"].(string)]: the zero
    string when the entry is missing or no string. *)
Definition resourceGroup (schema : Schema) : string :=
  match Metadata schema !! "resource_group" with
  | Some (GoString group) => group
  | _ => ""
  end.

(** [getAllResourcesFromSchemas]: the keys of [resourcesSet]. The slice the
    function returns lists them in the order of a map iteration, which Go
    leaves open; the model is the set. *)
Definition getAllResourcesFromSchemas (schemasList : list (list Schema))
  : gset string :=
  list_to_set (List.map resourceGroup (List.concat schemasList)).

(** [schema.Metadata["resource_group"] == resource]: an interface value
    equals a string when its dynamic type is [string] and the strings are
    equal. *)
Definition inResource (resource : string) (schema : Schema) : bool :=
  match Metadata schema !! "resource_group" with
  | Some (GoString group) => String.eqb group resource
  | _ => false
  end.

Definition filerSchemasByResource (resource : string) (schemas : list Schema)
  : list Schema :=
  List.filter (inResource resource) schemas.

(** *** The run command *)

(** [strings.Split(s, sep)] for a separator of one byte. *)
Fixpoint Split (sep : ascii) (s : string) : list string :=
  match s with
  | EmptyString => [""]
  | String c rest =>
      if Ascii.eqb c sep then "" :: Split sep rest
      else
        match Split sep rest with
        | first :: others => String c first :: others
        | [] => [String c ""]
        end
  end.

(** [kv[i]] *)
Definition index (l : list string) (i : nat) : result string :=
  match l !! i with
  | Some x => Ok x
  | None => Panic "index out of range"
  end.

(** The body of the loop over [c.Args()[1:]]. *)
Definition runArgument (state : result (list iface * gmap string iface))
    (arg : string) : result (list iface * gmap string iface) :=
  match state with
  | Panic msg => Panic msg
  | Ok (args, flags) =>
      if Contains arg "=" then
        let kv := Split "=" arg in
        match index kv 0, index kv 1 with
        | Ok k, Ok v => Ok (args, <[k := GoString v]> flags)
        | Panic msg, _ => Panic msg
        | _, Panic msg => Panic msg
        end
      else Ok (args ++ [GoString arg], flags)
  end.

(** The Action of [getRunCommand] up to the two [vm.Context.Set]: the
    script to run, then "args" and "flags". *)
Definition runArguments (Args : list string)
  : result (string * list iface * gmap string iface) :=
  match Args with
  | [] => Panic "index out of range"
  | src :: rest =>
      match fold_left runArgument rest (Ok ([], ∅)) with
      | Ok (args, flags) => Ok (src, args, flags)
      | Panic msg => Panic msg
      end
  end.

End cli.

(** ** Time in a schedule of the watch bridge *)

Module schedule.
Import otto.

(** The nanoseconds that pass in a list of actions. *)
Fixpoint ticks (actions : list EnvAction) : Z :=
  match actions with
  | [] => 0
  | Tick ns :: rest => Z.of_N ns + ticks rest
  | _ :: rest => ticks rest
  end.

(** The smallest and the largest timeout, in milliseconds, whose product
    with [time.Millisecond] fits [int64]. *)
Definition min_timeout : Z := -9223372036854.
Definition max_timeout : Z := 9223372036854.

End schedule.

(** ** Concrete values for the examples of the further properties *)

Module samples.
Import golang otto core cli.

(** motto knows "lodash"; "gohan_util" is a Go extension. *)
Definition loaders : Loaders :=
  {| motto_Require := fun moduleName =>
       if String.eqb moduleName "lodash" then (ObjectValue ∅, None)
       else (UndefinedValue, Some "Cannot find module");
     RequireModule := fun moduleName =>
       if String.eqb moduleName "gohan_util" then inl (GoMap ∅)
       else inr "Module not registered";
     ToValueOf := fun raw =>
       match raw with
       | GoMap m => inl (ObjectValue m)
       | _ => inr "unsupported value"
       end |}.

(** A node_modules directory with a module that does not resolve between
    two that do. *)
Definition lodash : FileInfo := {| Name := "lodash"; IsDir := true |}.
Definition dotbin : FileInfo := {| Name := ".bin"; IsDir := true |}.
Definition broken : FileInfo := {| Name := "broken"; IsDir := true |}.
Definition moment : FileInfo := {| Name := "moment"; IsDir := true |}.

Definition node_modules : FileSystem :=
  {| ReadDir := [lodash; dotbin; broken; moment];
     FindFileModule := fun name =>
       if String.eqb name "broken" then inr "module not found"
       else inl ("node_modules/" +:+ name);
     Stat := fun path =>
       if String.eqb path "node_modules/lodash" then Some true
       else if String.eqb path "node_modules/lodash/index.js" then Some false
       else if String.eqb path "node_modules/moment.js" then Some false
       else None |}.

(** Policies on the resources under /v1.0/ and two schemas. *)
Definition under_v1 (url : string) : bool := String.prefix "/v1.0/" url.

Definition admin_all : Policy :=
  {| Principal := "admin"; PolicyAction := "*"; Path := under_v1 |}.
Definition nobody_read : Policy :=
  {| Principal := "Nobody"; PolicyAction := "read"; Path := under_v1 |}.

Definition read_action : Action := {| ID := "read"; Method := "GET" |}.
Definition reboot_action : Action := {| ID := "reboot"; Method := "POST" |}.

Definition network : Schema :=
  {| URL := "/v1.0/networks";
     Actions := [read_action; reboot_action];
     Metadata := {[ "resource_group" := GoString "net" ]} |}.

Definition network_for_admin : Schema :=
  {| URL := "/v1.0/networks";
     Actions := [reboot_action];
     Metadata := {[ "resource_group" := GoString "net" ]} |}.

Definition ungrouped : Schema :=
  {| URL := "/v1.0/events"; Actions := []; Metadata := ∅ |}.

End samples.
(** * Properties *)

Import golang.

(** ** Isolation levels and filters *)

Section Transaction.
Import transaction.

Lemma GetIsolationLevel_default (s : Schema) (action : string) :
  IsolationLevel s !! action = None ->
  GetIsolationLevel s action =
    Ok (if String.eqb action "read" then RepeatableRead else Serializable).
Proof.
  intros Hnone. unfold GetIsolationLevel. rewrite Hnone.
  by destruct (String.eqb action "read").
Qed.

Lemma GetIsolationLevel_override (s : Schema) (action : string) (t : Type_) :
  IsolationLevel s !! action = Some (GoType t) ->
  GetIsolationLevel s action = Ok t.
Proof. intros Hsome. unfold GetIsolationLevel. by rewrite Hsome. Qed.

(** C3, at the failing input: the schema holds the override of "read" as
    the plain string a schema document yields; the type assertion
    [level.(Type)] panics, and no level is returned where the override
    was to be returned. *)
Lemma GetIsolationLevel_string_override_panics :
  IsolationLevel schema_with_string_override !! "read"
    = Some (GoString "READ COMMITTED")
  /\ forall t, GetIsolationLevel schema_with_string_override "read" <> Ok t.
Proof.
  split; [reflexivity|].
  intros t. vm_compute. discriminate.
Qed.

(** What the code does return: an override whose dynamic type is [Type]
    verbatim; without an override, [RepeatableRead] for "read" and
    [Serializable] for every other action. *)
Theorem GetIsolationLevel_spec (s : Schema) (action : string) :
  (forall t, IsolationLevel s !! action = Some (GoType t) ->
             GetIsolationLevel s action = Ok t)
  /\ (IsolationLevel s !! action = None ->
      (action = "read" -> GetIsolationLevel s action = Ok RepeatableRead)
      /\ (action <> "read" -> GetIsolationLevel s action = Ok Serializable)).
Proof.
  split.
  - intros t. apply GetIsolationLevel_override.
  - intros Hnone. rewrite (GetIsolationLevel_default _ _ Hnone). split.
    + intros ->. reflexivity.
    + intros Hne. apply String.eqb_neq in Hne. by rewrite Hne.
Qed.

Lemma GetIsolationLevel_spec_witness :
  GetIsolationLevel schema_with_override "read" = Ok ReadCommited
  /\ GetIsolationLevel schema_without_override "read" = Ok RepeatableRead
  /\ GetIsolationLevel schema_without_override "update" = Ok Serializable.
Proof.
  split; [|split].
  - apply (proj1 (GetIsolationLevel_spec schema_with_override "read")).
    reflexivity.
  - apply (proj2 (GetIsolationLevel_spec schema_without_override "read"));
      reflexivity.
  - apply (proj2 (GetIsolationLevel_spec schema_without_override "update"));
      [reflexivity | discriminate].
Defined.

(** C9: [IDFilter v] is the map with the single entry "id" bound to [v]. *)
Theorem IDFilter_single_entry (v : iface) :
  map_to_list (IDFilter v) = [("id", v)]
  /\ dom (IDFilter v) = {[ "id" ]}
  /\ IDFilter v !! "id" = Some v
  /\ size (IDFilter v) = 1%nat.
Proof.
  unfold IDFilter. split; [|split; [|split]].
  - apply map_to_list_singleton.
  - apply dom_singleton_L.
  - apply lookup_singleton_eq.
  - apply map_size_singleton.
Qed.

(** C10: the values of the four constants; [Serializable] alone is not in
    upper case, so it differs from its own upper-case form and from the SQL
    keyword. *)
Theorem Type_constants :
  ReadUncommited = "READ UNCOMMITTED"
  /\ ReadCommited = "READ COMMITTED"
  /\ RepeatableRead = "REPEATABLE READ"
  /\ Serializable = "Serializable"
  /\ ToUpper ReadUncommited = ReadUncommited
  /\ ToUpper ReadCommited = ReadCommited
  /\ ToUpper RepeatableRead = RepeatableRead
  /\ ToUpper Serializable = "SERIALIZABLE"
  /\ ToUpper Serializable <> Serializable
  /\ String.eqb Serializable "SERIALIZABLE" = false.
Proof. repeat split; try reflexivity. vm_compute. discriminate. Qed.

End Transaction.

(** ** The Transaction contract after Close *)

Section Contract.
Import contract.
Variable b : Backend.

Lemma exec_closed (op : Op) (tx : Tx) :
  lifecycle tx = IsClosed -> exec b op tx = (closed_reply op, tx).
Proof.
  intros Hclosed. unfold exec. rewrite Hclosed. by destruct op.
Qed.

Lemma Close_closes (tx : Tx) : lifecycle (exec b Close tx).2 = IsClosed.
Proof.
  unfold exec. destruct (lifecycle tx) eqn:Hlife; simpl; done.
Qed.

Lemma run_closed (ops : list Op) (tx : Tx) :
  lifecycle tx = IsClosed -> run b ops tx = tx.
Proof.
  intros Hclosed. induction ops as [|op ops IH]; [done|].
  unfold run in *. simpl. by rewrite (exec_closed op tx Hclosed).
Qed.

(** C8: whatever was done on the transaction before, after [Close] the
    transaction reports closed, a further [Close] succeeds and changes
    nothing, and every other operation, now and after any further
    operations, fails with [TransactionClosed] and changes nothing. *)
Theorem Close_then_TransactionClosed
    (level : transaction.Type_) (store : gmap (string * string) Row)
    (prior : list Op) :
  let tx := (exec b Close (run b prior (Begin level store))).2 in
  Closed tx = true
  /\ exec b Close tx = (Done, tx)
  /\ (forall op, exec b op tx = (closed_reply op, tx))
  /\ (forall later op, exec b op (run b later tx) = (closed_reply op, tx)).
Proof.
  intros tx.
  assert (Hclosed : lifecycle tx = IsClosed) by apply Close_closes.
  split; [|split; [|split]].
  - unfold Closed. by rewrite Hclosed.
  - by rewrite exec_closed.
  - intros op. by apply exec_closed.
  - intros later op. rewrite (run_closed later tx Hclosed).
    by apply exec_closed.
Qed.

End Contract.

(** ** The watch bridge *)

Section Watch.
Import sync otto.
Variable env : Environment.

(** *** Channels and goroutine under the actions of the environment *)

Lemma env_step_path (a : EnvAction) (st : WatchState) :
  watch_path (env_step a st) = watch_path st
  /\ watch_revision (env_step a st) = watch_revision st.
Proof.
  destruct a; simpl; unfold goroutine_step; repeat case_match; done.
Qed.

(** Nothing but the bridge sends on [stopChan]. *)
Lemma env_step_stopChan_empty (a : EnvAction) (st : WatchState) :
  stopChan st = [] -> stopChan (env_step a st) = [].
Proof.
  intros Hempty. destruct a as [i| |]; simpl; unfold goroutine_step;
    repeat case_match; simpl; try done.
  destruct i; simpl in *; repeat case_match; try done.
  rewrite Hempty in *. done.
Qed.

Lemma run_env_stopChan_empty (actions : list EnvAction) (st : WatchState) :
  stopChan st = [] -> stopChan (run_env actions st) = [].
Proof.
  revert st. induction actions as [|a actions IH]; intros st Hempty; [done|].
  apply IH. by apply env_step_stopChan_empty.
Qed.

Lemma hand_off_length (buf : list Event) (e : Event) :
  (List.length buf <= eventChan_cap)%nat ->
  (List.length (hand_off eventChan_cap buf e) <= eventChan_cap)%nat.
Proof.
  intros Hle. unfold hand_off, chan_send.
  destruct (List.length buf <? eventChan_cap)%nat eqn:Hlt; [|done].
  apply Nat.ltb_lt in Hlt. rewrite length_app. simpl. lia.
Qed.

Lemma env_step_eventChan_bounded (a : EnvAction) (st : WatchState) :
  (List.length (eventChan st) <= eventChan_cap)%nat ->
  (List.length (eventChan (env_step a st)) <= eventChan_cap)%nat.
Proof.
  intros Hle. destruct a; simpl; unfold goroutine_step;
    repeat case_match; simpl; try done.
  by apply hand_off_length.
Qed.

Lemma run_env_eventChan_bounded (actions : list EnvAction) (st : WatchState) :
  (List.length (eventChan st) <= eventChan_cap)%nat ->
  (List.length (eventChan (run_env actions st)) <= eventChan_cap)%nat.
Proof.
  revert st. induction actions as [|a actions IH]; intros st Hle; [done|].
  apply IH. by apply env_step_eventChan_bounded.
Qed.

Lemma hand_off_Forall (P : Event -> Prop) (cap : nat) (buf : list Event)
    (e : Event) :
  Forall P buf -> P e -> Forall P (hand_off cap buf e).
Proof.
  intros Hbuf He. unfold hand_off, chan_send.
  destruct (List.length buf <? cap)%nat; [|done].
  apply Forall_app. split; [done|]. by constructor.
Qed.

Lemma env_step_eventChan_later (a : EnvAction) (st : WatchState) :
  Forall (later_than (watch_revision st)) (eventChan st) ->
  Forall (later_than (watch_revision (env_step a st)))
         (eventChan (env_step a st)).
Proof.
  intros Hall. rewrite (proj2 (env_step_path a st)).
  destruct a as [i| |]; simpl; unfold goroutine_step;
    repeat case_match; simpl; try done.
  apply hand_off_Forall; [done|].
  destruct i; simpl in *; repeat case_match; try done.
  match goal with
  | H : HandsOff _ = HandsOff _ |- _ => injection H as <-
  end.
  match goal with
  | H : Watch_selects _ _ _ = true |- _ =>
      unfold Watch_selects in H; apply andb_true_iff in H as [_ H];
      by apply Z.ltb_lt in H
  end.
Qed.

Lemma run_env_eventChan_later (actions : list EnvAction) (st : WatchState) :
  Forall (later_than (watch_revision st)) (eventChan st) ->
  Forall (later_than (watch_revision st)) (eventChan (run_env actions st)).
Proof.
  revert st. induction actions as [|a actions IH]; intros st Hall; [done|].
  simpl. rewrite <- (proj2 (env_step_path a st)).
  apply IH. by apply env_step_eventChan_later.
Qed.

(** A burst of mutations with nobody receiving: the buffer takes the
    selected events in order until its slots are used up. *)
Lemma run_env_burst (es : list Event) (st : WatchState) :
  worker st = Watching ->
  (List.length (eventChan st) <= eventChan_cap)%nat ->
  eventChan (run_env (burst es) st) =
    take eventChan_cap
      (eventChan st ++ Watch_stream (watch_path st) (watch_revision st) es).
Proof.
  revert st. induction es as [|e es IH]; intros st Hw Hle.
  - simpl. rewrite app_nil_r. by rewrite take_ge.
  - simpl. unfold goroutine_step at 1. rewrite Hw. simpl.
    destruct (Watch_selects (watch_path st) (watch_revision st) e) eqn:Hsel.
    + rewrite IH; simpl; [|done|by apply hand_off_length].
      unfold hand_off, chan_send.
      destruct (List.length (eventChan st) <? eventChan_cap)%nat eqn:Hlt.
      * by rewrite <- app_assoc.
      * apply Nat.ltb_ge in Hlt.
        rewrite !take_app_le by lia. done.
    + by rewrite IH.
Qed.

Lemma watch_start_burst (path : string) (timeoutMsec revision : Z)
    (es : list Event) :
  eventChan (run_env (burst es) (watch_start path timeoutMsec revision)) =
    take eventChan_cap (Watch_stream path revision es).
Proof.
  rewrite run_env_burst; [done|done|]. simpl. unfold eventChan_cap. lia.
Qed.

(** The worker after it has exited: no send on [errorChan], no hand-off. *)
Lemma env_step_Exited (a : EnvAction) (st : WatchState) :
  worker st = Exited ->
  worker (env_step a st) = Exited
  /\ eventChan (env_step a st) = eventChan st.
Proof.
  intros Hw. destruct a; simpl; unfold goroutine_step; rewrite ?Hw; simpl;
    try done.
  by case_match.
Qed.

Lemma run_env_Exited (later : list EnvAction) (st : WatchState) :
  worker st = Exited ->
  worker (run_env later st) = Exited
  /\ eventChan (run_env later st) = eventChan st.
Proof.
  revert st. induction later as [|a later IH]; intros st Hw; [done|].
  simpl. destruct (env_step_Exited a st Hw) as [Hw' Hev].
  destruct (IH _ Hw') as [? ?]. split; congruence.
Qed.

(** The worker blocked in its send with nobody left to receive. *)
Lemma env_step_SendingError (a : EnvAction) (st : WatchState) (e : string) :
  worker st = SendingError e -> worker (env_step a st) = SendingError e.
Proof.
  intros Hw. destruct a; simpl; unfold goroutine_step; rewrite ?Hw; simpl;
    try done.
  by case_match.
Qed.

Lemma run_env_SendingError (later : list EnvAction) (st : WatchState)
    (e : string) :
  worker st = SendingError e -> worker (run_env later st) = SendingError e.
Proof.
  revert st. induction later as [|a later IH]; intros st Hw; [done|].
  simpl. apply IH. by apply env_step_SendingError.
Qed.

(** *** Argument validation *)

Lemma GetString_is_string (v : Value) :
  is_string v = false -> exists e, GetString v = inr e.
Proof. destruct v; simpl; try discriminate; eauto. Qed.

Lemma GetInt64_is_int64 (v : Value) :
  is_int64 v = false -> exists e, GetInt64 v = inr e.
Proof.
  destruct v; simpl; try discriminate; eauto.
  intros ->. eauto.
Qed.

Lemma fetch_arguments_rejects (call : FunctionCall) :
  well_typed_fetch call = false ->
  exists msg, fetch_arguments env call = inr (Throw msg).
Proof.
  unfold well_typed_fetch, fetch_arguments, VerifyCallArguments.
  destruct (List.length (ArgumentList call) =? 1)%nat; simpl; [|eauto].
  intros Hs. destruct (GetString_is_string _ Hs) as [e ->]. eauto.
Qed.

Lemma watch_arguments_rejects (call : FunctionCall) :
  well_typed_watch call = false ->
  exists msg, watch_arguments env call = inr (Throw msg).
Proof.
  unfold well_typed_watch, watch_arguments, VerifyCallArguments.
  destruct (List.length (ArgumentList call) =? 3)%nat; simpl; [|eauto].
  destruct (is_string (Argument call 0)) eqn:Hs; simpl.
  2: { intros _. destruct (GetString_is_string _ Hs) as [e ->]. simpl. eauto. }
  destruct (GetString (Argument call 0)) as [path|e]; simpl; [|eauto].
  destruct (is_int64 (Argument call 1)) eqn:Ht; simpl.
  2: { intros _. destruct (GetInt64_is_int64 _ Ht) as [e ->]. simpl. eauto. }
  destruct (GetInt64 (Argument call 1)) as [timeoutMsec|e]; simpl; [|eauto].
  intros Hr. destruct (GetInt64_is_int64 _ Hr) as [e ->]. simpl. eauto.
Qed.

(** C6: a call of either builtin with a wrong number of arguments, a path
    that is no string or, for the watch, a timeout or revision that is no
    integer, ends in a thrown error with nothing dispatched: no fetch, no
    watch, no channel and no goroutine. *)
Theorem arguments_checked_before_dispatch (call : FunctionCall) :
  (well_typed_fetch call = false ->
   forall sel, exists msg,
     gohan_sync_fetch env call sel =
       {| fetch_outcome := Throw msg; fetch_dispatched := [] |})
  /\ (well_typed_watch call = false ->
      forall sched, exists msg,
        gohan_sync_watch env call sched =
          Some {| outcome := Throw msg; dispatched := []; final := None |}).
Proof.
  split.
  - intros Hbad sel. destruct (fetch_arguments_rejects call Hbad) as [msg Hmsg].
    exists msg. unfold gohan_sync_fetch. by rewrite Hmsg.
  - intros Hbad sched.
    destruct (watch_arguments_rejects call Hbad) as [msg Hmsg].
    exists msg. unfold gohan_sync_watch. by rewrite Hmsg.
Qed.

(** *** The select *)

(** C1, amended: when the select takes the timer case the call returns the
    empty object, and when it takes the interrupt case the call runs the
    interrupt and, if that returns, returns null; in both cases [true] has
    been sent on [stopChan] before. *)
Theorem watch_timeout_and_interrupt (call : FunctionCall) (sched : Schedule)
    (path : string) (timeoutMsec revision : Z) :
  watch_arguments env call = inl (path, timeoutMsec, revision) ->
  let st := run_env (before sched) (watch_start path timeoutMsec revision) in
  (chosen sched = CaseTimer -> timer st <= elapsed st ->
   ToValue env ∅ = inl (ObjectValue ∅) ->
   exists st',
     gohan_sync_watch env call sched =
       Some {| outcome := Return (ObjectValue ∅);
               dispatched := [SyncWatch path revision];
               final := Some st' |}
     /\ stopChan st' = [true])
  /\ (forall i, chosen sched = CaseInterrupt -> interruptChan st = Some i ->
      exists st',
        gohan_sync_watch env call sched =
          Some {| outcome := interrupt_outcome i;
                  dispatched := [SyncWatch path revision];
                  final := Some st' |}
        /\ stopChan st' = [true]).
Proof.
  intros Hargs st.
  assert (Hstop : stopChan st = []) by by apply run_env_stopChan_empty.
  split.
  - intros Hc Hfired Hempty. eexists.
    unfold gohan_sync_watch. rewrite Hargs, Hc. fold st.
    unfold select_watch, send_stop, chan_send.
    apply Z.leb_le in Hfired. rewrite Hfired, Hstop, Hempty. simpl.
    split; reflexivity.
  - intros i Hc Hi. eexists.
    unfold gohan_sync_watch. rewrite Hargs, Hc. fold st.
    unfold select_watch, send_stop, chan_send. rewrite Hi. simpl.
    rewrite Hstop. simpl. destruct i; simpl; split; reflexivity.
Qed.

(** Whatever case the select takes, it receives at most one event. *)
Lemma select_watch_eventChan (c : SelectCase) (st st' : WatchState)
    (o : Outcome) :
  select_watch env c st = Some (o, st') ->
  eventChan st' = eventChan st \/ exists e, eventChan st = e :: eventChan st'.
Proof.
  unfold select_watch, send_stop. intros Hsel.
  destruct c; repeat case_match; simplify_eq; simpl; eauto.
  all: destruct (eventChan st) as [|e0 rest]; simpl in *; simplify_eq; eauto.
Qed.

(** C4: the event case receives the oldest buffered event and returns it,
    leaving the rest of the buffer, the stop channel and the goroutine as
    they are; the buffer never holds more than 32 events; a burst handed
    off while nobody receives fills the buffer in order and loses what
    comes after the 32nd slot; no case of the select receives more than
    one event. *)
Theorem watch_consumes_one_event (call : FunctionCall) (sched : Schedule)
    (path : string) (timeoutMsec revision : Z) :
  watch_arguments env call = inl (path, timeoutMsec, revision) ->
  let st := run_env (before sched) (watch_start path timeoutMsec revision) in
  (List.length (eventChan st) <= 32)%nat
  /\ (forall e rest, chosen sched = CaseEvent -> eventChan st = e :: rest ->
      exists st',
        gohan_sync_watch env call sched =
          Some {| outcome := event_outcome env e;
                  dispatched := [SyncWatch path revision];
                  final := Some st' |}
        /\ eventChan st' = rest
        /\ stopChan st' = []
        /\ worker st' = worker st)
  /\ (forall es, before sched = burst es ->
      eventChan st = take 32 (Watch_stream path revision es))
  /\ (forall o st', select_watch env (chosen sched) st = Some (o, st') ->
      eventChan st' = eventChan st
      \/ exists e, eventChan st = e :: eventChan st').
Proof.
  intros Hargs st. split; [|split; [|split]];
    [| | |intros o st'; apply select_watch_eventChan].
  - apply run_env_eventChan_bounded. simpl. lia.
  - intros e rest Hc Hev.
    assert (Hstop : stopChan st = []) by by apply run_env_stopChan_empty.
    exists (set_eventChan rest st).
    unfold gohan_sync_watch. rewrite Hargs, Hc. fold st.
    unfold select_watch, event_outcome. rewrite Hev. simpl.
    destruct (ToValue env (convertSyncEvent e)); simpl; done.
  - intros es Hes. subst st. rewrite Hes. apply watch_start_burst.
Qed.

(** C5: when the select takes the error case the call throws, with the
    error the goroutine was sending; the goroutine exits, and from then on
    it sends no further error and hands off no further event. *)
Theorem watch_error_thrown_once (call : FunctionCall) (sched : Schedule)
    (path : string) (timeoutMsec revision : Z) (e : string) :
  watch_arguments env call = inl (path, timeoutMsec, revision) ->
  chosen sched = CaseError ->
  worker (run_env (before sched) (watch_start path timeoutMsec revision))
    = SendingError e ->
  exists st',
    gohan_sync_watch env call sched =
      Some {| outcome := Throw ("Sync watch ex failed: " +:+ e);
              dispatched := [SyncWatch path revision];
              final := Some st' |}
    /\ worker st' = Exited
    /\ forall later,
         worker (run_env later st') = Exited
         /\ eventChan (run_env later st') = eventChan st'.
Proof.
  intros Hargs Hc Hw. eexists.
  unfold gohan_sync_watch. rewrite Hargs, Hc.
  unfold select_watch. rewrite Hw.
  split; [reflexivity|]. split; [reflexivity|].
  intros later. by apply run_env_Exited.
Qed.

End Watch.

(** ** The subscription and the runs of the bridge on concrete calls *)

Section Runs.
Import sync otto.

(** C2: a watch started at [revision] streams no event whose revision is at
    most [revision], and the bridge, which passes its third argument on as
    that revision, never has such an event in its buffer; mutations with
    revisions 3, 6, 7, 9 watched from revision 5 yield 6, 7, 9 in order. *)
Theorem Watch_streams_later_revisions (path : string) (revision : Z) :
  (forall mutations,
     Forall (later_than revision) (Watch_stream path revision mutations))
  /\ (forall timeoutMsec actions,
        Forall (later_than revision)
          (eventChan (run_env actions (watch_start path timeoutMsec revision))))
  /\ List.map Revision
       (Watch_stream "/config" 5 (List.map (updated "/config") [3; 6; 7; 9]))
     = [6; 7; 9]
  /\ List.map Revision
       (eventChan
          (run_env (burst (List.map (updated "/config") [3; 6; 7; 9]))
             (watch_start "/config" 1000 5)))
     = [6; 7; 9].
Proof.
  split; [|split; [|split]].
  - intros mutations. apply List.Forall_forall. intros e He.
    apply List.filter_In in He as [_ He].
    unfold Watch_selects in He. apply andb_true_iff in He as [_ He].
    by apply Z.ltb_lt in He.
  - intros timeoutMsec actions.
    apply (run_env_eventChan_later actions
             (watch_start path timeoutMsec revision)).
    constructor.
  - reflexivity.
  - reflexivity.
Qed.

(** C1, as stated, fails: with an interrupt that returns, the call returns
    null, which is not the empty object a timeout returns. *)
Lemma watch_interrupt_returns_null :
  outcome <$> gohan_sync_watch example_env (watch_call "/config" 1000 0)
                {| before := [InterruptArrives InterruptReturns];
                   chosen := CaseInterrupt |}
    = Some (Return NullValue)
  /\ outcome <$> gohan_sync_watch example_env (watch_call "/config" 1000 0)
                   {| before := [Tick 1000000000]; chosen := CaseTimer |}
       = Some (Return (ObjectValue ∅))
  /\ Return NullValue <> Return (ObjectValue ∅).
Proof. split; [|split]; [reflexivity | reflexivity | discriminate]. Qed.

Lemma watch_timeout_and_interrupt_witness :
  (exists st',
     gohan_sync_watch example_env (watch_call "/config" 1000 0)
       {| before := [Tick 1000000000]; chosen := CaseTimer |} =
       Some {| outcome := Return (ObjectValue ∅);
               dispatched := [SyncWatch "/config" 0];
               final := Some st' |}
     /\ stopChan st' = [true])
  /\ (exists st',
        gohan_sync_watch example_env (watch_call "/config" 1000 0)
          {| before := [InterruptArrives (InterruptPanics "halt")];
             chosen := CaseInterrupt |} =
          Some {| outcome := GoPanic "halt";
                  dispatched := [SyncWatch "/config" 0];
                  final := Some st' |}
        /\ stopChan st' = [true]).
Proof.
  split.
  - apply (proj1 (watch_timeout_and_interrupt example_env
                    (watch_call "/config" 1000 0)
                    {| before := [Tick 1000000000]; chosen := CaseTimer |}
                    "/config" 1000 0 eq_refl));
      [reflexivity | vm_compute; discriminate | reflexivity].
  - apply (proj2 (watch_timeout_and_interrupt example_env
                    (watch_call "/config" 1000 0)
                    {| before := [InterruptArrives (InterruptPanics "halt")];
                       chosen := CaseInterrupt |}
                    "/config" 1000 0 eq_refl) (InterruptPanics "halt"));
      reflexivity.
Defined.

Lemma watch_consumes_one_event_witness :
  exists st',
    gohan_sync_watch example_env (watch_call "/config" 1000 5)
      {| before := burst (List.map (updated "/config") [3; 6; 7; 9]);
         chosen := CaseEvent |} =
      Some {| outcome := event_outcome example_env (updated "/config" 6);
              dispatched := [SyncWatch "/config" 5];
              final := Some st' |}
    /\ eventChan st' = [updated "/config" 7; updated "/config" 9]
    /\ stopChan st' = []
    /\ worker st' = Watching.
Proof.
  apply (proj1 (proj2 (watch_consumes_one_event example_env
                         (watch_call "/config" 1000 5)
                         {| before := burst (List.map (updated "/config")
                                                      [3; 6; 7; 9]);
                            chosen := CaseEvent |}
                         "/config" 1000 5 eq_refl))
           (updated "/config" 6)
           [updated "/config" 7; updated "/config" 9]);
    reflexivity.
Defined.

Lemma watch_error_thrown_once_witness :
  exists st',
    gohan_sync_watch example_env (watch_call "/config" 1000 0)
      {| before := [Subscription (LinkFailure "link down")]; chosen := CaseError |} =
      Some {| outcome := Throw "Sync watch ex failed: link down";
              dispatched := [SyncWatch "/config" 0];
              final := Some st' |}
    /\ worker st' = Exited
    /\ forall later,
         worker (run_env later st') = Exited
         /\ eventChan (run_env later st') = eventChan st'.
Proof.
  apply (watch_error_thrown_once example_env (watch_call "/config" 1000 0)
           {| before := [Subscription (LinkFailure "link down")]; chosen := CaseError |}
           "/config" 1000 0 "link down"); reflexivity.
Defined.

Lemma arguments_checked_before_dispatch_witness :
  (forall sel, exists msg,
     gohan_sync_fetch example_env {| ArgumentList := [NumberValue 1] |} sel =
       {| fetch_outcome := Throw msg; fetch_dispatched := [] |})
  /\ (forall sched, exists msg,
        gohan_sync_watch example_env
          {| ArgumentList :=
               [StringValue "/config"; StringValue "soon"; NumberValue 0] |}
          sched =
          Some {| outcome := Throw msg; dispatched := []; final := None |}).
Proof.
  split.
  - apply (proj1 (arguments_checked_before_dispatch example_env
                    {| ArgumentList := [NumberValue 1] |})).
    reflexivity.
  - apply (proj2 (arguments_checked_before_dispatch example_env
                    {| ArgumentList :=
                         [StringValue "/config"; StringValue "soon";
                          NumberValue 0] |})).
    reflexivity.
Defined.

(** C7, at the failing runs. The call returns the empty object on timeout
    with the stop signal sent. If [Sync.Watch] receives the signal next,
    the goroutine exits. If the link fails before that, or had failed by
    the time the select took the timer case, the goroutine is blocked in
    its send on [errorChan] and stays so whatever happens later. *)
Theorem watch_timeout_strands_worker (later : list EnvAction) :
  (exists st',
     gohan_sync_watch example_env (watch_call "/config" 1000 0)
       {| before := [Tick 1000000000]; chosen := CaseTimer |} =
       Some {| outcome := Return (ObjectValue ∅);
               dispatched := [SyncWatch "/config" 0];
               final := Some st' |}
     /\ stopChan st' = [true]
     /\ worker (run_env [Subscription StopNoticed] st') = Exited
     /\ worker (run_env (Subscription (LinkFailure "link down") :: later) st')
        = SendingError "link down")
  /\ (exists st',
        gohan_sync_watch example_env (watch_call "/config" 1000 0)
          {| before := [Tick 1000000000;
                        Subscription (LinkFailure "link down")];
             chosen := CaseTimer |} =
          Some {| outcome := Return (ObjectValue ∅);
                  dispatched := [SyncWatch "/config" 0];
                  final := Some st' |}
        /\ stopChan st' = [true]
        /\ worker (run_env later st') = SendingError "link down").
Proof.
  split.
  - eexists. split; [reflexivity|]. split; [reflexivity|].
    split; [reflexivity|]. simpl. by apply run_env_SendingError.
  - eexists. split; [reflexivity|]. split; [reflexivity|].
    by apply run_env_SendingError.
Qed.

End Runs.

(** * Further properties of the code *)

(** ** Conversions of the sync extension *)

Section Conversions.
Import sync otto.

(** The script object of an event has the four keys of the event and
    determines the event. *)
Theorem convertSyncEvent_injective (e1 e2 : Event) :
  dom (convertSyncEvent e1) = {[ "action"; "key"; "data"; "revision" ]}
  /\ (convertSyncEvent e1 = convertSyncEvent e2 -> e1 = e2).
Proof.
  split.
  - unfold convertSyncEvent. rewrite !dom_insert_L, dom_empty_L. set_solver.
  - intros Heq.
    assert (Ha := f_equal (fun m => m !! "action") Heq).
    assert (Hk := f_equal (fun m => m !! "key") Heq).
    assert (Hd := f_equal (fun m => m !! "data") Heq).
    assert (Hr := f_equal (fun m => m !! "revision") Heq).
    unfold convertSyncEvent in Ha, Hk, Hd, Hr. simpl in *.
    simplify_map_eq.
    destruct e1, e2; simpl in *. congruence.
Qed.

Lemma convertSyncEvent_injective_witness :
  updated "/config" 6 = updated "/config" 6.
Proof.
  apply (proj2 (convertSyncEvent_injective (updated "/config" 6)
                  (updated "/config" 6))).
  reflexivity.
Defined.

(** Induction on a node with the hypothesis for all its children. *)
Lemma Node_children_ind (P : Node -> Prop) :
  (forall key value revision children,
     Forall P children -> P (mkNode key value revision children)) ->
  forall node, P node.
Proof.
  intros Hnode. fix IH 1. intros [key value revision children].
  apply Hnode. induction children as [|c children IHc]; constructor.
  - apply IH.
  - apply IHc.
Qed.

(** The script object of a node determines the node, children included. *)
Theorem convertSyncNode_injective (n1 n2 : Node) :
  convertSyncNode n1 = convertSyncNode n2 -> n1 = n2.
Proof.
  revert n2. induction n1 as [k1 v1 r1 cs1 IH] using Node_children_ind.
  intros [k2 v2 r2 cs2] Heq.
  assert (Hk := f_equal (fun m => m !! "key") Heq).
  assert (Hv := f_equal (fun m => m !! "value") Heq).
  assert (Hr := f_equal (fun m => m !! "revision") Heq).
  assert (Hc := f_equal (fun m => m !! "children") Heq).
  simpl in Hk, Hv, Hr, Hc. simplify_map_eq.
  f_equal.
  match goal with
  | H : List.map _ cs1 = List.map _ cs2 |- _ => rename H into Hmap
  end.
  clear Heq. revert cs2 Hmap.
  induction IH as [|c cs1 Hc _ IHcs]; intros [|c2 cs2] Hmap;
    simpl in Hmap; try discriminate; [done|].
  injection Hmap as Hhead Htail.
  f_equal; [by apply Hc | by apply IHcs].
Qed.

Lemma convertSyncNode_injective_witness :
  mkNode "/config" "v" 7 [mkNode "/config/a" "w" 3 []]
  = mkNode "/config" "v" 7 [mkNode "/config/a" "w" 3 []].
Proof. apply convertSyncNode_injective. reflexivity. Defined.

End Conversions.

(** ** The fetch bridge *)

Section Fetch.
Import sync otto.
Variable env : Environment.

(** A fetch with a valid argument dispatches one [Sync.Fetch] for its path.
    Once that has returned, its error, if any, is thrown, whether or not a
    node came with it; without an error the node is converted and
    returned, or null when the conversion fails. *)
Theorem fetch_done (call : FunctionCall) (path : string) :
  fetch_arguments env call = inl path ->
  (forall sel, fetch_dispatched (gohan_sync_fetch env call sel)
               = [SyncFetch path])
  /\ (forall n e,
        fetch_outcome
          (gohan_sync_fetch env call (FetchDone {| node := n; err := Some e |}))
        = Throw ("Failed to fetch sync: " +:+ e))
  /\ (forall n,
        fetch_outcome
          (gohan_sync_fetch env call
             (FetchDone {| node := Some n; err := None |}))
        = match ToValue env (convertSyncNode n) with
          | inl value => Return value
          | inr _ => Return NullValue
          end).
Proof.
  intros Hargs. unfold gohan_sync_fetch. rewrite Hargs.
  split; [|split].
  - intros [[|msg] written|fetched]; reflexivity.
  - reflexivity.
  - reflexivity.
Qed.

(** A fetch that is interrupted before [Sync.Fetch] has returned, with an
    interrupt that returns, goes on with the nil node and the nil error and
    panics in the conversion; nothing is returned to the script. When the
    interrupt itself panics, that panic ends the call. *)
Theorem fetch_interrupted (call : FunctionCall) (path : string) :
  fetch_arguments env call = inl path ->
  gohan_sync_fetch env call (FetchInterrupt InterruptReturns None)
  = {| fetch_outcome :=
         GoPanic "invalid memory address or nil pointer dereference";
       fetch_dispatched := [SyncFetch path] |}
  /\ (forall msg written,
        gohan_sync_fetch env call (FetchInterrupt (InterruptPanics msg) written)
        = {| fetch_outcome := GoPanic msg;
             fetch_dispatched := [SyncFetch path] |}).
Proof.
  intros Hargs. unfold gohan_sync_fetch. rewrite Hargs. split; reflexivity.
Qed.

End Fetch.

(** ** The timer and the argument errors of the watch bridge *)

Section Timer.
Import sync otto schedule.
Variable env : Environment.

Lemma timer_duration_exact (timeoutMsec : Z) :
  min_timeout <= timeoutMsec <= max_timeout ->
  timer_duration timeoutMsec = timeoutMsec * 1000000.
Proof.
  unfold min_timeout, max_timeout, timer_duration, wrap64. intros Hrange.
  assert (H63 : 2 ^ 63 = 9223372036854775808) by reflexivity.
  assert (H64 : 2 ^ 64 = 18446744073709551616) by reflexivity.
  rewrite H63, H64. rewrite Z.mod_small by lia. lia.
Qed.

Lemma timer_duration_wraps (timeoutMsec : Z) :
  max_timeout < timeoutMsec <= 18446744073709 ->
  timer_duration timeoutMsec = timeoutMsec * 1000000 - 2 ^ 64.
Proof.
  unfold max_timeout, timer_duration, wrap64. intros Hrange.
  assert (H63 : 2 ^ 63 = 9223372036854775808) by reflexivity.
  assert (H64 : 2 ^ 64 = 18446744073709551616) by reflexivity.
  rewrite H63, H64.
  replace (timeoutMsec * 1000000 + 9223372036854775808)
    with (timeoutMsec * 1000000 + 9223372036854775808
          - 18446744073709551616 + 1 * 18446744073709551616) by lia.
  rewrite Z_mod_plus_full. rewrite Z.mod_small by lia. lia.
Qed.

Lemma env_step_elapsed (a : EnvAction) (st : WatchState) :
  elapsed (env_step a st) = elapsed st + ticks [a]
  /\ timer (env_step a st) = timer st.
Proof.
  destruct a; simpl; unfold goroutine_step; repeat case_match; simpl;
    split; lia.
Qed.

Lemma run_env_elapsed (actions : list EnvAction) (st : WatchState) :
  elapsed (run_env actions st) = elapsed st + ticks actions
  /\ timer (run_env actions st) = timer st.
Proof.
  revert st. induction actions as [|a actions IH]; intros st.
  - simpl. split; lia.
  - change (run_env (a :: actions) st)
      with (run_env actions (env_step a st)).
    destruct (IH (env_step a st)) as [He Ht].
    destruct (env_step_elapsed a st) as [He' Ht'].
    rewrite He, Ht, He', Ht'.
    split; [|done]. destruct a; simpl; lia.
Qed.

(** The call never times out early: when it ends by its timer case, for a
    timeout that does not overflow, at least that many milliseconds have
    passed since it started. *)
Theorem watch_never_times_out_early (call : FunctionCall) (sched : Schedule)
    (path : string) (timeoutMsec revision : Z) (r : WatchResult) :
  watch_arguments env call = inl (path, timeoutMsec, revision) ->
  min_timeout <= timeoutMsec <= max_timeout ->
  chosen sched = CaseTimer ->
  gohan_sync_watch env call sched = Some r ->
  timeoutMsec * 1000000 <= ticks (before sched).
Proof.
  intros Hargs Hrange Hc Hres.
  unfold gohan_sync_watch in Hres. rewrite Hargs, Hc in Hres.
  unfold select_watch in Hres.
  destruct (run_env_elapsed (before sched)
              (watch_start path timeoutMsec revision)) as [He Ht].
  destruct (timer _ <=? elapsed _) eqn:Hready; [|by repeat case_match].
  apply Z.leb_le in Hready. rewrite He, Ht in Hready. simpl in Hready.
  rewrite (timer_duration_exact _ Hrange) in Hready. lia.
Qed.

(** With a timeout of zero or less the timer case can proceed the moment
    the call starts: the call sends the stop signal and returns what a
    timeout returns. *)
Theorem watch_nonpositive_timeout (call : FunctionCall)
    (path : string) (timeoutMsec revision : Z) :
  watch_arguments env call = inl (path, timeoutMsec, revision) ->
  min_timeout <= timeoutMsec <= 0 ->
  gohan_sync_watch env call {| before := []; chosen := CaseTimer |} =
    Some {| outcome := timeout_outcome env;
            dispatched := [SyncWatch path revision];
            final := Some (set_stopChan [true]
                             (watch_start path timeoutMsec revision)) |}.
Proof.
  intros Hargs Hrange. unfold gohan_sync_watch. rewrite Hargs. simpl.
  rewrite timer_duration_exact by (unfold max_timeout; lia).
  assert (Hready : (timeoutMsec * 1000000 <=? 0) = true)
    by (apply Z.leb_le; lia).
  rewrite Hready. unfold timeout_outcome.
  destruct (ToValue env ∅); reflexivity.
Qed.

(** A timeout beyond the largest that fits wraps around in the
    multiplication by [time.Millisecond] to a negative duration: the timer
    case can proceed the moment the call starts. *)
Theorem watch_timeout_overflow (call : FunctionCall)
    (path : string) (timeoutMsec revision : Z) :
  watch_arguments env call = inl (path, timeoutMsec, revision) ->
  max_timeout < timeoutMsec <= 18446744073709 ->
  timer_duration timeoutMsec < 0
  /\ gohan_sync_watch env call {| before := []; chosen := CaseTimer |} =
       Some {| outcome := timeout_outcome env;
               dispatched := [SyncWatch path revision];
               final := Some (set_stopChan [true]
                                (watch_start path timeoutMsec revision)) |}.
Proof.
  intros Hargs Hrange.
  assert (Hneg : timer_duration timeoutMsec < 0).
  { rewrite timer_duration_wraps by done.
    assert (H64 : 2 ^ 64 = 18446744073709551616) by reflexivity.
    rewrite H64. lia. }
  split; [done|].
  unfold gohan_sync_watch. rewrite Hargs. simpl.
  assert (Hready : (timer_duration timeoutMsec <=? 0) = true)
    by (apply Z.leb_le; lia).
  rewrite Hready. unfold timeout_outcome.
  destruct (ToValue env ∅); reflexivity.
Qed.

(** The errors of the three argument checks, in the order of the checks: a
    path that is no string is reported first; a timeout or a revision that
    is no integer is reported with a message that names the first
    argument. *)
Theorem watch_argument_messages (call : FunctionCall) (sched : Schedule) :
  List.length (ArgumentList call) = 3%nat ->
  (forall e, GetString (Argument call 0) = inr e ->
     gohan_sync_watch env call sched =
       Some {| outcome :=
                 Throw "Invalid type of first argument: expected a string";
               dispatched := []; final := None |})
  /\ (forall p e,
        GetString (Argument call 0) = inl p ->
        GetInt64 (Argument call 1) = inr e ->
        gohan_sync_watch env call sched =
          Some {| outcome :=
                    Throw "Invalid type of first argument: expected an int64";
                  dispatched := []; final := None |})
  /\ (forall p t e,
        GetString (Argument call 0) = inl p ->
        GetInt64 (Argument call 1) = inl t ->
        GetInt64 (Argument call 2) = inr e ->
        gohan_sync_watch env call sched =
          Some {| outcome :=
                    Throw "Invalid type of first argument: expected an int64";
                  dispatched := []; final := None |}).
Proof.
  intros Hlen. unfold gohan_sync_watch, watch_arguments, VerifyCallArguments.
  rewrite Hlen. simpl. split; [|split].
  - intros e ->. reflexivity.
  - intros p e -> ->. reflexivity.
  - intros p t e -> -> ->. reflexivity.
Qed.

End Timer.

(** Runs of the two builtins on concrete calls. *)

Section BridgeRuns.
Import sync otto schedule.

Lemma fetch_done_witness :
  fetch_outcome
    (gohan_sync_fetch example_env (fetch_call "/config")
       (FetchDone {| node := Some (mkNode "/config" "v" 7 []);
                     err := Some "link down" |}))
  = Throw "Failed to fetch sync: link down".
Proof.
  apply (proj1 (proj2 (fetch_done example_env (fetch_call "/config")
                         "/config" eq_refl))).
Defined.

Lemma fetch_interrupted_witness :
  gohan_sync_fetch example_env (fetch_call "/config")
    (FetchInterrupt InterruptReturns None)
  = {| fetch_outcome :=
         GoPanic "invalid memory address or nil pointer dereference";
       fetch_dispatched := [SyncFetch "/config"] |}.
Proof.
  apply (proj1 (fetch_interrupted example_env (fetch_call "/config")
                  "/config" eq_refl)).
Defined.

Lemma watch_never_times_out_early_witness :
  1000 * 1000000 <= ticks [Tick 400000000; Tick 600000000].
Proof.
  apply (watch_never_times_out_early example_env (watch_call "/config" 1000 0)
           {| before := [Tick 400000000; Tick 600000000];
              chosen := CaseTimer |}
           "/config" 1000 0
           {| outcome := Return (ObjectValue ∅);
              dispatched := [SyncWatch "/config" 0];
              final := Some (set_stopChan [true]
                               (run_env [Tick 400000000; Tick 600000000]
                                  (watch_start "/config" 1000 0))) |});
    [reflexivity | unfold min_timeout, max_timeout; lia | reflexivity
    | reflexivity].
Defined.

Lemma watch_nonpositive_timeout_witness :
  gohan_sync_watch example_env (watch_call "/config" 0 0)
    {| before := []; chosen := CaseTimer |} =
    Some {| outcome := Return (ObjectValue ∅);
            dispatched := [SyncWatch "/config" 0];
            final := Some (set_stopChan [true] (watch_start "/config" 0 0)) |}.
Proof.
  apply (watch_nonpositive_timeout example_env (watch_call "/config" 0 0)
           "/config" 0 0 eq_refl).
  unfold min_timeout. lia.
Defined.

Lemma watch_timeout_overflow_witness :
  timer_duration 9223372036855 < 0
  /\ gohan_sync_watch example_env (watch_call "/config" 9223372036855 0)
       {| before := []; chosen := CaseTimer |} =
       Some {| outcome := Return (ObjectValue ∅);
               dispatched := [SyncWatch "/config" 0];
               final := Some (set_stopChan [true]
                                (watch_start "/config" 9223372036855 0)) |}.
Proof.
  apply (watch_timeout_overflow example_env
           (watch_call "/config" 9223372036855 0)
           "/config" 9223372036855 0 eq_refl).
  unfold max_timeout. lia.
Defined.

Lemma watch_argument_messages_witness :
  gohan_sync_watch example_env
    {| ArgumentList :=
         [StringValue "/config"; NumberValue 1000; StringValue "latest"] |}
    {| before := []; chosen := CaseEvent |} =
    Some {| outcome :=
              Throw "Invalid type of first argument: expected an int64";
            dispatched := []; final := None |}.
Proof.
  apply (proj2 (proj2 (watch_argument_messages example_env
                         {| ArgumentList :=
                              [StringValue "/config"; NumberValue 1000;
                               StringValue "latest"] |}
                         {| before := []; chosen := CaseEvent |} eq_refl))
           "/config" 1000 "not an int64"); reflexivity.
Defined.

End BridgeRuns.

(** ** require and the loading of NPM modules *)

Section Core.
Import otto core.

(** The builtin "require" on a module name: a module that motto finds is
    returned and the Go extensions are not consulted; otherwise the Go
    extension of that name is converted and returned; when both fail the
    error thrown is the one of the second attempt, and the error of motto
    is not reported. *)
Theorem require_prefers_npm (env : Environment) (l : Loaders)
    (moduleName : string) :
  let o := builtin_require env l {| ArgumentList := [StringValue moduleName] |} in
  (forall v, motto_Require l moduleName = (v, None) -> o = Return v)
  /\ (forall v e raw module,
        motto_Require l moduleName = (v, Some e) ->
        RequireModule l moduleName = inl raw ->
        ToValueOf l raw = inl module ->
        o = Return module)
  /\ (forall v e errRequire,
        motto_Require l moduleName = (v, Some e) ->
        RequireModule l moduleName = inr errRequire ->
        o = Throw errRequire)
  /\ (forall v e raw errConvert,
        motto_Require l moduleName = (v, Some e) ->
        RequireModule l moduleName = inl raw ->
        ToValueOf l raw = inr errConvert ->
        o = Throw errConvert).
Proof.
  unfold builtin_require, VerifyCallArguments, require, requireFromMotto,
    requireFromOtto. simpl.
  split; [|split; [|split]].
  - intros v ->. reflexivity.
  - intros v e raw module -> -> ->. reflexivity.
  - intros v e errRequire -> ->. reflexivity.
  - intros v e raw errConvert -> -> ->. reflexivity.
Qed.

Lemma loadModules_cons (fs : FileSystem) (f : FileInfo)
    (rest : list FileInfo) :
  loadModules fs (f :: rest) =
    if IsDir f && negb (hidden (Name f)) then
      match FindFileModule fs (Name f) with
      | inr _ => []
      | inl module =>
          if String.eqb (firstEntryPoint fs (entryPointCandidates module)) ""
          then []
          else (Name f, firstEntryPoint fs (entryPointCandidates module))
                 :: loadModules fs rest
      end
    else loadModules fs rest.
Proof. reflexivity. Qed.

(** Loading stops at the first visible directory that does not resolve to
    a module with an entry point: the directories after it register
    nothing, whatever they hold. Entries that are no directories, and
    directories whose name starts with a dot, do not count. *)
Theorem loadModules_stops_at_first_failure (fs : FileSystem)
    (files1 files2 : list FileInfo) (f : FileInfo) :
  IsDir f = true ->
  hidden (Name f) = false ->
  (forall module, FindFileModule fs (Name f) = inl module ->
                  firstEntryPoint fs (entryPointCandidates module) = "") ->
  loadModules fs (files1 ++ f :: files2) = loadModules fs files1
  /\ loadModules fs
       (List.filter (fun g => IsDir g && negb (hidden (Name g)))
          (files1 ++ f :: files2))
     = loadModules fs files1.
Proof.
  intros Hdir Hvisible Hfail.
  assert (Hstop : forall rest, loadModules fs (f :: rest) = []).
  { intros rest. rewrite loadModules_cons, Hdir, Hvisible. cbn [andb negb].
    destruct (FindFileModule fs (Name f)) as [module|e]; [|done].
    by rewrite (Hfail module eq_refl). }
  assert (Hskip : forall files,
             loadModules fs
               (List.filter (fun g => IsDir g && negb (hidden (Name g))) files)
             = loadModules fs files).
  { induction files as [|g files IH]; [done|].
    rewrite loadModules_cons. cbn [List.filter].
    destruct (IsDir g && negb (hidden (Name g))) eqn:Hg; [|done].
    rewrite loadModules_cons, Hg. by rewrite IH. }
  assert (Hmain : loadModules fs (files1 ++ f :: files2)
                  = loadModules fs files1).
  { induction files1 as [|g files1 IH].
    - apply (Hstop files2).
    - rewrite <- app_comm_cons, !loadModules_cons. by rewrite IH. }
  split; [done|]. by rewrite Hskip.
Qed.

End Core.

(** ** Filters of the swagger templates *)

Section Swagger.
Import cli.

Lemma fold_delete_lookup (keys : list string) (node : gmap string iface)
    (k : string) :
  fold_left (fun n p => delete p n) keys node !! k =
    if bool_decide (k ∈ keys) then None else node !! k.
Proof.
  revert node. induction keys as [|p keys IH]; intros node.
  - cbn [fold_left]. rewrite bool_decide_eq_false_2; [done|].
    apply not_elem_of_nil.
  - cbn [fold_left]. rewrite IH.
    destruct (decide (k ∈ keys)) as [Hin|Hnin].
    + rewrite !bool_decide_eq_true_2; [done| |done].
      apply elem_of_cons. by right.
    + rewrite (bool_decide_eq_false_2 (k ∈ keys)) by done.
      destruct (decide (k = p)) as [->|Hne].
      * rewrite lookup_delete_eq, bool_decide_eq_true_2; [done|].
        apply elem_of_cons. by left.
      * rewrite lookup_delete_ne, bool_decide_eq_false_2; [done| |done].
        intros Hin. apply elem_of_cons in Hin as [?|?]; done.
Qed.

(** [deleteGohanExtendedProperties] removes the ten extended properties
    and leaves every other entry of the node as it is; doing it twice
    changes nothing more. *)
Theorem deleteGohanExtendedProperties_lookup (node : gmap string iface)
    (k : string) :
  deleteGohanExtendedProperties node !! k =
    (if bool_decide (k ∈ extendedProperties) then None else node !! k)
  /\ deleteGohanExtendedProperties (deleteGohanExtendedProperties node)
     = deleteGohanExtendedProperties node.
Proof.
  unfold deleteGohanExtendedProperties. split.
  - apply fold_delete_lookup.
  - apply map_eq. intros i. rewrite !fold_delete_lookup.
    by case_bool_decide.
Qed.

Lemma swaggerScan_inMatch (name : string) :
  hasByte "/" name = false -> swaggerScan true name = name +:+ "}".
Proof.
  induction name as [|c name IH]; [done|]. simpl.
  intros Hno. apply orb_false_iff in Hno as [Hc Hrest].
  rewrite Hc. by rewrite IH.
Qed.

Lemma swaggerScan_copies (pre s : string) :
  hasByte ":" pre = false ->
  swaggerScan false (pre +:+ s) = pre +:+ swaggerScan false s.
Proof.
  induction pre as [|c pre IH]; [done|]. simpl.
  intros Hno. apply orb_false_iff in Hno as [Hc Hrest].
  rewrite Hc. by rewrite IH.
Qed.

(** A path without a colon is left as it is. *)
Theorem toSwaggerPath_without_colon (i : string) :
  hasByte ":" i = false -> toSwaggerPath i = i.
Proof.
  unfold toSwaggerPath. induction i as [|c i IH]; [done|]. simpl.
  intros Hno. apply orb_false_iff in Hno as [Hc Hrest].
  rewrite Hc. by rewrite IH.
Qed.

(** A colon followed by a name, up to the end of the path, becomes the
    name in braces; what stands before the first colon is copied. *)
Theorem toSwaggerPath_parameter (pre name : string) :
  hasByte ":" pre = false ->
  name <> "" ->
  hasByte "/" name = false ->
  toSwaggerPath (pre +:+ ":" +:+ name) = pre +:+ "{" +:+ name +:+ "}".
Proof.
  intros Hpre Hname Hslash. unfold toSwaggerPath.
  rewrite swaggerScan_copies by done. f_equal.
  destruct name as [|d name]; [done|].
  simpl in Hslash. apply orb_false_iff in Hslash as [Hd Hrest].
  simpl. rewrite !Hd. by rewrite swaggerScan_inMatch.
Qed.

Lemma swaggerScan_colon (d : ascii) (rest : string) :
  swaggerScan false (String ":" (String d rest)) =
    if Ascii.eqb d "/" then String ":" (swaggerScan false (String d rest))
    else String "{" (swaggerScan true (String d rest)).
Proof. reflexivity. Qed.

Lemma swaggerScan_slash (inMatch : bool) (a b : string) :
  swaggerScan inMatch (a +:+ String "/" b) =
    swaggerScan inMatch a +:+ String "/" (swaggerScan false b).
Proof.
  revert inMatch. induction a as [|c a IH]; intros inMatch.
  - by destruct inMatch.
  - destruct inMatch.
    + simpl. destruct (Ascii.eqb c "/"); simpl; by rewrite IH.
    + destruct (Ascii.eqb c ":") eqn:Hc.
      * apply Ascii.eqb_eq in Hc as ->.
        destruct a as [|d a]; [reflexivity|].
        change (String ":" (String d a) +:+ String "/" b)
          with (String ":" (String d (a +:+ String "/" b))).
        rewrite !swaggerScan_colon.
        change (String d (a +:+ String "/" b))
          with (String d a +:+ String "/" b).
        destruct (Ascii.eqb d "/"); rewrite IH; reflexivity.
      * simpl. rewrite Hc. simpl. by rewrite IH.
Qed.

(** No match reaches across a slash: the segments of a path are rewritten
    one by one. *)
Theorem toSwaggerPath_segments (a b : string) :
  toSwaggerPath (a +:+ "/" +:+ b) =
    toSwaggerPath a +:+ "/" +:+ toSwaggerPath b.
Proof. apply swaggerScan_slash. Qed.

Lemma prefix_app (sub s : string) : String.prefix sub (sub +:+ s) = true.
Proof.
  induction sub as [|c sub IH]; simpl; [by destruct s|].
  destruct (ascii_dec c c); [done|congruence].
Qed.

Lemma Contains_unfold (s sub : string) :
  Contains s sub =
    String.prefix sub s
    || match s with
       | EmptyString => false
       | String _ rest => Contains rest sub
       end.
Proof. by destruct s. Qed.

Lemma Contains_app (a sub b : string) : Contains (a +:+ sub +:+ b) sub = true.
Proof.
  induction a as [|c a IH].
  - rewrite Contains_unfold.
    change ("" +:+ sub +:+ b) with (sub +:+ b). by rewrite prefix_app.
  - change (String c a +:+ sub +:+ b) with (String c (a +:+ sub +:+ b)).
    rewrite Contains_unfold. cbv iota. rewrite IH. apply orb_true_r.
Qed.

(** [hasIdParam] holds for every path with ":id" somewhere in it, whatever
    follows: a parameter whose name only starts with "id" counts. *)
Theorem hasIdParam_anywhere (a b : string) :
  hasIdParam (a +:+ ":id" +:+ b) = true.
Proof. apply Contains_app. Qed.

End Swagger.

(** ** Policies and resource groups of the template commands *)

Section Policies.
Import cli.

Lemma hasMatchingPolicy_true (action : Action) (policies : list Policy) :
  hasMatchingPolicy action policies = true <->
  exists policy, In policy policies /\ ID action = PolicyAction policy.
Proof.
  induction policies as [|p policies IH]; simpl.
  - split; [discriminate|]. by intros (? & [] & _).
  - destruct (String.eqb (ID action) (PolicyAction p)) eqn:Heq.
    + apply String.eqb_eq in Heq. split; [|done]. eauto.
    + apply String.eqb_neq in Heq. rewrite IH. split.
      * intros (q & Hq & Hid). eauto.
      * intros (q & [<-|Hq] & Hid); [done|eauto].
Qed.

Lemma canUseAction_true (action : Action) (policies : list Policy)
    (url : string) :
  canUseAction action policies url = true <->
  exists policy, In policy policies /\ Path policy url = true
                 /\ isMatchingPolicy action policy = true.
Proof.
  induction policies as [|p policies IH]; simpl.
  - split; [discriminate|]. by intros (? & [] & _).
  - destruct (Path p url && isMatchingPolicy action p) eqn:Heq.
    + apply andb_true_iff in Heq as [? ?]. split; [|done]. eauto 6.
    + rewrite IH. split.
      * intros (q & Hq & Hm). eauto.
      * intros (q & [<-|Hq] & Hpath & Hm); [|eauto].
        rewrite Hpath, Hm in Heq. discriminate.
Qed.

Lemma filterActions_In (schemaToFilter : Schema)
    (nobodyPolicies policies : list Policy) (action : Action) :
  In action (filterActions schemaToFilter nobodyPolicies policies) <->
  In action (Actions schemaToFilter)
  /\ (forall policy, In policy nobodyPolicies ->
                     ID action <> PolicyAction policy)
  /\ (exists policy, In policy policies
                     /\ Path policy (URL schemaToFilter) = true
                     /\ isMatchingPolicy action policy = true).
Proof.
  unfold filterActions. rewrite List.filter_In, andb_true_iff, negb_true_iff.
  rewrite canUseAction_true.
  assert (Hnobody : hasMatchingPolicy action nobodyPolicies = false <->
                    forall policy, In policy nobodyPolicies ->
                                   ID action <> PolicyAction policy).
  { split.
    - intros Hfalse policy Hin Hid.
      assert (hasMatchingPolicy action nobodyPolicies = true)
        by (apply hasMatchingPolicy_true; eauto).
      congruence.
    - intros Hall. apply not_true_is_false. intros Htrue.
      apply hasMatchingPolicy_true in Htrue as (policy & Hin & Hid).
      by apply (Hall policy). }
  rewrite Hnobody. tauto.
Qed.

(** The actions [filterActions] keeps are the actions of the schema that
    some policy matching the URL of the schema allows and whose ID is the
    action of no Nobody policy, whatever resource that Nobody policy is
    for. *)
Theorem filterActions_spec (schemaToFilter : Schema)
    (nobodyPolicies policies : list Policy) (action : Action) :
  In action (filterActions schemaToFilter nobodyPolicies policies) <->
  In action (Actions schemaToFilter)
  /\ (forall policy, In policy nobodyPolicies ->
                     ID action <> PolicyAction policy)
  /\ (exists policy, In policy policies
                     /\ Path policy (URL schemaToFilter) = true
                     /\ isMatchingPolicy action policy = true).
Proof. apply filterActions_In. Qed.

Lemma filterPolicies_In (principal : string) (policies : list Policy)
    (policy : Policy) :
  In policy (filterPolicies principal policies) <->
  In policy policies /\ Principal policy = principal.
Proof.
  unfold filterPolicies. rewrite List.filter_In. by rewrite String.eqb_eq.
Qed.

Lemma splitSchemas_In (matched nobody : list Policy) (schemas : list Schema)
    (schemaCopy : Schema) :
  In schemaCopy (splitSchemas matched nobody schemas).1
  \/ In schemaCopy (splitSchemas matched nobody schemas).2 ->
  exists schemaOriginal,
    In schemaOriginal schemas
    /\ URL schemaCopy = URL schemaOriginal
    /\ Metadata schemaCopy = Metadata schemaOriginal
    /\ Actions schemaCopy = filterActions schemaOriginal nobody matched.
Proof.
  induction schemas as [|s schemas IH]; simpl.
  - intros [[]|[]].
  - destruct (splitSchemas matched nobody schemas) as [r c] eqn:Hsplit.
    simpl in IH.
    destruct (getMatchingPolicy s matched) as [policy|]; simpl.
    + destruct (String.eqb (PolicyAction policy) "read"); simpl.
      * intros [[<-|Hin]|Hin]; [by exists s; auto| |];
          destruct IH as (s0 & ? & ?); eauto.
      * intros [Hin|[<-|Hin]]; [|by exists s; auto|];
          destruct IH as (s0 & ? & ?); eauto.
    + intros Hin. destruct (IH Hin) as (s0 & ? & ?). eauto.
Qed.

(** Every action that [filterSchemasForPolicy] leaves on a schema of
    either list is allowed by a policy of the principal that matches the
    URL of that schema; and unless the principal is Nobody itself, its ID
    is the action of no policy of Nobody. *)
Theorem filterSchemasForPolicy_actions (principal : string)
    (policies : list Policy) (schemas : list Schema)
    (schemaCopy : Schema) (action : Action) :
  In schemaCopy (filterSchemasForPolicy principal policies schemas).1
  \/ In schemaCopy (filterSchemasForPolicy principal policies schemas).2 ->
  In action (Actions schemaCopy) ->
  (exists policy, In policy policies /\ Principal policy = principal
                  /\ Path policy (URL schemaCopy) = true
                  /\ isMatchingPolicy action policy = true)
  /\ (principal <> principalNobody ->
      forall policy, In policy policies ->
                     Principal policy = principalNobody ->
                     ID action <> PolicyAction policy).
Proof.
  unfold filterSchemasForPolicy. intros Hin Haction.
  apply splitSchemas_In in Hin as (s & _ & Hurl & _ & Hactions).
  rewrite Hactions in Haction.
  apply filterActions_In in Haction
    as (_ & Hnobody & policy & Hp & Hpath & Hm).
  apply filterPolicies_In in Hp as [Hp Hprincipal].
  split.
  - exists policy. rewrite Hurl. auto.
  - intros Hne q Hq Hqn.
    destruct (String.eqb principal principalNobody) eqn:Heq.
    + apply String.eqb_eq in Heq. done.
    + apply Hnobody. by apply filterPolicies_In.
Qed.

Lemma getMatchingPolicy_None (schema : Schema) (policies : list Policy) :
  getMatchingPolicy schema policies = None <->
  existsb (fun policy => Path policy (URL schema)) policies = false.
Proof.
  induction policies as [|p policies IH]; simpl; [done|].
  destruct (Path p (URL schema)); simpl; [split; discriminate|done].
Qed.

Lemma filterSchemasForPolicy_count (principal : string)
    (policies : list Policy) (schemas : list Schema) :
  (List.length (filterSchemasForPolicy principal policies schemas).1
   + List.length (filterSchemasForPolicy principal policies schemas).2
   = List.length
       (List.filter
          (fun schema =>
             existsb (fun policy => Path policy (URL schema))
               (filterPolicies principal policies))
          schemas))%nat
  /\ (filterPolicies principal policies = [] ->
      filterSchemasForPolicy principal policies schemas = ([], [])).
Proof.
  unfold filterSchemasForPolicy.
  set (matched := filterPolicies principal policies).
  set (nobody := if String.eqb principal principalNobody then []
                 else filterPolicies principalNobody policies).
  split.
  - induction schemas as [|s schemas IH]; [done|]. simpl.
    destruct (splitSchemas matched nobody schemas) as [r c] eqn:Hsplit.
    simpl in IH.
    destruct (getMatchingPolicy s matched) as [policy|] eqn:Hget.
    + assert (Hex : existsb (fun p => Path p (URL s)) matched = true).
      { apply not_false_is_true. intros Hfalse.
        apply getMatchingPolicy_None in Hfalse. congruence. }
      rewrite Hex. simpl.
      destruct (String.eqb (PolicyAction policy) "read"); simpl; lia.
    + apply getMatchingPolicy_None in Hget. rewrite Hget. simpl. lia.
  - intros Hnone. rewrite Hnone.
    induction schemas as [|s schemas IH]; [done|]. simpl. by rewrite IH.
Qed.

Lemma filterSchemasForPolicy_lists (principal : string)
    (policies : list Policy) (schemas : list Schema) :
  filterSchemasForPolicy principal policies schemas =
    (List.map (schemaCopyFor principal policies)
       (List.filter (decidedRead (matchedPoliciesFor principal policies))
          schemas),
     List.map (schemaCopyFor principal policies)
       (List.filter (decidedOther (matchedPoliciesFor principal policies))
          schemas)).
Proof.
  unfold filterSchemasForPolicy, schemaCopyFor, nobodyPoliciesFor,
    matchedPoliciesFor.
  set (matched := filterPolicies principal policies).
  set (nobody := if String.eqb principal principalNobody then []
                 else filterPolicies principalNobody policies).
  induction schemas as [|s schemas IH]; [done|].
  cbn [splitSchemas List.filter]. rewrite IH.
  unfold decidedRead, decidedOther.
  destruct (getMatchingPolicy s matched) as [policy|]; [|done].
  by destruct (String.eqb (PolicyAction policy) "read").
Qed.

(** [filterSchemasForPolicy] copies each schema that some policy of the
    principal matches into exactly one of its two lists, and no other
    schema. The first list is the copies of the schemas whose first
    matching policy is a "read" policy, the second the copies of those
    whose first matching policy is another one, each in the order of the
    schemas; a copy has the URL and the metadata of its schema and the
    filtered actions. No schema is decided both ways; the two lengths add
    up to the number of matched schemas; without a policy for the
    principal both lists are empty. *)
Theorem filterSchemasForPolicy_partition (principal : string)
    (policies : list Policy) (schemas : list Schema) :
  filterSchemasForPolicy principal policies schemas =
    (List.map (schemaCopyFor principal policies)
       (List.filter (decidedRead (matchedPoliciesFor principal policies))
          schemas),
     List.map (schemaCopyFor principal policies)
       (List.filter (decidedOther (matchedPoliciesFor principal policies))
          schemas))
  /\ (forall schema,
        decidedRead (matchedPoliciesFor principal policies) schema
        && decidedOther (matchedPoliciesFor principal policies) schema
        = false)
  /\ (forall schema,
        decidedRead (matchedPoliciesFor principal policies) schema
        || decidedOther (matchedPoliciesFor principal policies) schema
        = existsb (fun policy => Path policy (URL schema))
            (filterPolicies principal policies))
  /\ (List.length (filterSchemasForPolicy principal policies schemas).1
      + List.length (filterSchemasForPolicy principal policies schemas).2
      = List.length
          (List.filter
             (fun schema =>
                existsb (fun policy => Path policy (URL schema))
                  (filterPolicies principal policies))
             schemas))%nat
  /\ (filterPolicies principal policies = [] ->
      filterSchemasForPolicy principal policies schemas = ([], [])).
Proof.
  split; [apply filterSchemasForPolicy_lists|].
  split; [|split; [|apply filterSchemasForPolicy_count]].
  - intros schema. unfold decidedRead, decidedOther.
    destruct (getMatchingPolicy schema _) as [policy|]; [|done].
    by destruct (String.eqb (PolicyAction policy) "read").
  - intros schema. unfold decidedRead, decidedOther, matchedPoliciesFor.
    destruct (getMatchingPolicy schema (filterPolicies principal policies))
      as [policy|] eqn:Hget.
    + assert (Hex : existsb (fun p => Path p (URL schema))
                      (filterPolicies principal policies) = true).
      { apply not_false_is_true. intros Hfalse.
        apply getMatchingPolicy_None in Hfalse. congruence. }
      rewrite Hex. by destruct (String.eqb (PolicyAction policy) "read").
    + apply getMatchingPolicy_None in Hget. by rewrite Hget.
Qed.

End Policies.

Section ResourceGroups.
Import cli.

Lemma resourceGroup_listed (schemasList : list (list Schema))
    (schemas : list Schema) (s : Schema) :
  In schemas schemasList -> In s schemas ->
  resourceGroup s ∈ getAllResourcesFromSchemas schemasList.
Proof.
  intros Hl Hs. unfold getAllResourcesFromSchemas.
  apply elem_of_list_to_set, list_elem_of_In, List.in_map.
  apply List.in_concat. eauto.
Qed.

(** A schema whose resource_group is missing, or is no string, makes the
    empty name one of the resource groups, but [filerSchemasByResource]
    selects it for no group, the empty name included. *)
Theorem schema_without_group_is_selected_by_none
    (schemasList : list (list Schema)) (schemas : list Schema) (s : Schema) :
  In schemas schemasList -> In s schemas ->
  (forall group, Metadata s !! "resource_group" <> Some (GoString group)) ->
  "" ∈ getAllResourcesFromSchemas schemasList
  /\ forall resource l, ~ In s (filerSchemasByResource resource l).
Proof.
  intros Hl Hs Hnone. split.
  - assert (Hgroup : resourceGroup s = "").
    { unfold resourceGroup.
      destruct (Metadata s !! "resource_group") as [[]|] eqn:Hm; try done.
      by destruct (Hnone s0). }
    rewrite <- Hgroup. by apply (resourceGroup_listed _ schemas).
  - intros resource l Hin. unfold filerSchemasByResource in Hin.
    apply List.filter_In in Hin as [_ Hin]. unfold inResource in Hin.
    destruct (Metadata s !! "resource_group") as [[]|] eqn:Hm; try done.
    by destruct (Hnone s0).
Qed.

(** A schema with a string as its resource_group is listed under that
    group, and [filerSchemasByResource] selects it for that group and for
    no other; every resource group other than the empty name selects at
    least one schema. *)
Theorem schema_with_group_is_selected_by_it
    (schemasList : list (list Schema)) (schemas : list Schema) (s : Schema)
    (group : string) :
  In schemas schemasList -> In s schemas ->
  Metadata s !! "resource_group" = Some (GoString group) ->
  group ∈ getAllResourcesFromSchemas schemasList
  /\ (forall resource,
        In s (filerSchemasByResource resource schemas) <-> resource = group)
  /\ (forall resource,
        resource ∈ getAllResourcesFromSchemas schemasList ->
        resource <> "" ->
        exists schemas' s',
          In schemas' schemasList
          /\ In s' (filerSchemasByResource resource schemas')).
Proof.
  intros Hl Hs Hgroup. split; [|split].
  - assert (Hg : resourceGroup s = group)
      by (unfold resourceGroup; by rewrite Hgroup).
    rewrite <- Hg. by apply (resourceGroup_listed _ schemas).
  - intros resource. unfold filerSchemasByResource.
    rewrite List.filter_In. unfold inResource. rewrite Hgroup.
    rewrite String.eqb_eq. split; [by intros [_ ->]|by intros ->].
  - intros resource Hin Hne. unfold getAllResourcesFromSchemas in Hin.
    apply elem_of_list_to_set, list_elem_of_In, List.in_map_iff in Hin
      as (s' & Hs' & Hin).
    apply List.in_concat in Hin as (schemas' & Hl' & Hin).
    exists schemas', s'. split; [done|].
    unfold filerSchemasByResource. apply List.filter_In. split; [done|].
    unfold resourceGroup in Hs'. unfold inResource.
    destruct (Metadata s' !! "resource_group") as [[]|]; try done.
    by apply String.eqb_eq.
Qed.

End ResourceGroups.

(** ** The arguments of the run command *)

Section RunCommand.
Import cli.

Lemma prefix_byte (c d : ascii) (s : string) :
  String.prefix (String c "") (String d s) = Ascii.eqb d c.
Proof.
  cbn [String.prefix]. destruct (ascii_dec c d) as [->|Hne].
  - rewrite Ascii.eqb_refl. by destruct s.
  - symmetry. apply Ascii.eqb_neq. congruence.
Qed.

Lemma Contains_equals (s : string) : Contains s "=" = hasByte "=" s.
Proof.
  induction s as [|c s IH]; [done|].
  rewrite Contains_unfold. cbv iota. rewrite IH.
  change "="%string with (String "="%char "") at 1.
  by rewrite prefix_byte.
Qed.

Lemma Split_cons (sep : ascii) (s : string) :
  exists first others, Split sep s = first :: others.
Proof.
  induction s as [|c s (first & others & IH)]; simpl; [eauto|].
  destruct (Ascii.eqb c sep); [eauto|]. rewrite IH. eauto.
Qed.

Lemma Split_without (sep : ascii) (s : string) :
  hasByte sep s = false -> Split sep s = [s].
Proof.
  induction s as [|c s IH]; [done|]. simpl.
  intros Hno. apply orb_false_iff in Hno as [Hc Hrest].
  rewrite Hc, IH by done. done.
Qed.

Lemma Split_first (sep : ascii) (k v : string) :
  hasByte sep k = false ->
  Split sep (k +:+ String sep v) = k :: Split sep v.
Proof.
  induction k as [|c k IH]; simpl.
  - intros _. by rewrite Ascii.eqb_refl.
  - intros Hno. apply orb_false_iff in Hno as [Hc Hrest].
    rewrite Hc, IH by done. done.
Qed.

Lemma Split_second (sep : ascii) (s : string) :
  hasByte sep s = true -> exists k v others, Split sep s = k :: v :: others.
Proof.
  induction s as [|c s IH]; [done|]. simpl.
  destruct (Ascii.eqb c sep) eqn:Hc; simpl.
  - intros _. destruct (Split_cons sep s) as (first & others & ->). eauto.
  - intros Hs. destruct (IH Hs) as (k & v & others & ->). eauto.
Qed.

Lemma runArgument_Ok (args : list iface) (flags : gmap string iface)
    (arg : string) :
  exists flags',
    runArgument (Ok (args, flags)) arg =
      Ok (args ++ (if Contains arg "=" then [] else [GoString arg]), flags').
Proof.
  unfold runArgument. destruct (Contains arg "=") eqn:Hc.
  - rewrite Contains_equals in Hc.
    destruct (Split_second _ _ Hc) as (k & v & others & ->). simpl.
    rewrite app_nil_r. eauto.
  - eauto.
Qed.

Lemma fold_runArgument (rest : list string) (args : list iface)
    (flags : gmap string iface) :
  exists flags',
    fold_left runArgument rest (Ok (args, flags)) =
      Ok (args ++ List.map GoString
                    (List.filter (fun arg => negb (Contains arg "=")) rest),
          flags').
Proof.
  revert args flags. induction rest as [|arg rest IH]; intros args flags.
  - simpl. rewrite app_nil_r. eauto.
  - cbn [fold_left]. destruct (runArgument_Ok args flags arg) as (flags1 & ->).
    destruct (IH (args ++ (if Contains arg "=" then [] else [GoString arg]))
                flags1) as (flags2 & ->).
    exists flags2. f_equal. f_equal. cbn [List.filter].
    destruct (Contains arg "="); simpl.
    + by rewrite app_nil_r.
    + by rewrite <- app_assoc.
Qed.

(** The run command needs the script as its first argument: without any
    argument it panics. With one, it never fails on the others, and the
    script receives as "args" the arguments without an equals sign, in
    their order. *)
Theorem runArguments_positional (src : string) (rest : list string) :
  runArguments [] = Panic "index out of range"
  /\ exists flags,
       runArguments (src :: rest) =
         Ok (src,
             List.map GoString
               (List.filter (fun arg => negb (Contains arg "=")) rest),
             flags).
Proof.
  split; [done|]. unfold runArguments.
  destruct (fold_runArgument rest [] ∅) as (flags & ->). eauto.
Qed.

(** An argument "k=v" sets the flag k to v, over any earlier setting of
    k; of an argument "k=v=w" only v is kept, and w is dropped. *)
Theorem runArguments_flag (src : string) (rest : list string)
    (k v w : string) :
  hasByte "=" k = false ->
  hasByte "=" v = false ->
  (exists args flags,
     runArguments (src :: rest ++ [k +:+ "=" +:+ v]) = Ok (src, args, flags)
     /\ flags !! k = Some (GoString v))
  /\ (exists args flags,
        runArguments (src :: rest ++ [k +:+ "=" +:+ v +:+ "=" +:+ w])
          = Ok (src, args, flags)
        /\ flags !! k = Some (GoString v)).
Proof.
  intros Hk Hv. unfold runArguments.
  destruct (fold_runArgument rest [] ∅) as (flags0 & Hfold).
  split.
  - rewrite fold_left_app, Hfold. cbn [fold_left]. unfold runArgument.
    rewrite (Contains_app k "=" v).
    change (k +:+ "=" +:+ v) with (k +:+ String "=" v).
    rewrite Split_first, Split_without by done. simpl.
    eexists _, _. split; [reflexivity|]. apply lookup_insert_eq.
  - rewrite fold_left_app, Hfold. cbn [fold_left]. unfold runArgument.
    rewrite (Contains_app k "=" (v +:+ "=" +:+ w)).
    change (k +:+ "=" +:+ v +:+ "=" +:+ w)
      with (k +:+ String "=" (v +:+ String "=" w)).
    rewrite !Split_first by done.
    destruct (Split_cons "=" w) as (first & others & ->). simpl.
    eexists _, _. split; [reflexivity|]. apply lookup_insert_eq.
Qed.

Lemma runArguments_flag_witness :
  exists args flags,
    runArguments ["deploy.yaml"; "site=a"; "now"; "site=b=c"]
      = Ok ("deploy.yaml", args, flags)
    /\ flags !! "site" = Some (GoString "b").
Proof.
  apply (proj2 (runArguments_flag "deploy.yaml" ["site=a"; "now"]
                  "site" "b" "c" eq_refl eq_refl)).
Defined.

End RunCommand.

(** Runs of the further functions on concrete values. *)

Section SampleRuns.
Import otto core cli samples.

Lemma require_prefers_npm_witness :
  builtin_require example_env loaders
    {| ArgumentList := [StringValue "gohan_util"] |}
  = Return (ObjectValue ∅).
Proof.
  apply (proj1 (proj2 (require_prefers_npm example_env loaders "gohan_util"))
           UndefinedValue "Cannot find module" (GoMap ∅) (ObjectValue ∅));
    reflexivity.
Defined.

Lemma loadModules_stops_at_first_failure_witness :
  loadModules node_modules ([lodash; dotbin] ++ broken :: [moment])
  = loadModules node_modules [lodash; dotbin]
  /\ loadModules node_modules
       (List.filter (fun g => IsDir g && negb (hidden (Name g)))
          ([lodash; dotbin] ++ broken :: [moment]))
     = loadModules node_modules [lodash; dotbin].
Proof.
  apply (loadModules_stops_at_first_failure node_modules [lodash; dotbin]
           [moment] broken); [reflexivity | reflexivity |].
  intros module Hfound. vm_compute in Hfound. discriminate.
Defined.

Lemma toSwaggerPath_without_colon_witness :
  toSwaggerPath "/v1.0/networks" = "/v1.0/networks".
Proof. apply toSwaggerPath_without_colon. reflexivity. Defined.

Lemma toSwaggerPath_parameter_witness :
  toSwaggerPath ("/v1.0/networks/" +:+ ":" +:+ "id")
  = "/v1.0/networks/" +:+ "{" +:+ "id" +:+ "}".
Proof.
  apply toSwaggerPath_parameter; [reflexivity | discriminate | reflexivity].
Defined.

Lemma filterSchemasForPolicy_actions_witness :
  (exists policy,
     In policy [nobody_read; admin_all] /\ Principal policy = "admin"
     /\ Path policy (URL network_for_admin) = true
     /\ isMatchingPolicy reboot_action policy = true)
  /\ ("admin" <> principalNobody ->
      forall policy, In policy [nobody_read; admin_all] ->
                     Principal policy = principalNobody ->
                     ID reboot_action <> PolicyAction policy).
Proof.
  apply (filterSchemasForPolicy_actions "admin" [nobody_read; admin_all]
           [network; ungrouped] network_for_admin reboot_action).
  - right. left. reflexivity.
  - left. reflexivity.
Defined.

Lemma schema_without_group_is_selected_by_none_witness :
  "" ∈ getAllResourcesFromSchemas [[network; ungrouped]]
  /\ forall resource l, ~ In ungrouped (filerSchemasByResource resource l).
Proof.
  apply (schema_without_group_is_selected_by_none [[network; ungrouped]]
           [network; ungrouped] ungrouped).
  - left. reflexivity.
  - right. left. reflexivity.
  - intros group. vm_compute. discriminate.
Defined.

Lemma schema_with_group_is_selected_by_it_witness :
  "net" ∈ getAllResourcesFromSchemas [[network; ungrouped]]
  /\ (forall resource,
        In network (filerSchemasByResource resource [network; ungrouped])
        <-> resource = "net")
  /\ (forall resource,
        resource ∈ getAllResourcesFromSchemas [[network; ungrouped]] ->
        resource <> "" ->
        exists schemas' s',
          In schemas' [[network; ungrouped]]
          /\ In s' (filerSchemasByResource resource schemas')).
Proof.
  apply (schema_with_group_is_selected_by_it [[network; ungrouped]]
           [network; ungrouped] network "net").
  - left. reflexivity.
  - left. reflexivity.
  - reflexivity.
Defined.

End SampleRuns.

(** ** When GetIsolationLevel returns, and when the bridge can block *)

Section Returns.
Import transaction sync otto.

(** [GetIsolationLevel] returns a level exactly when the schema has no
    override for the action or has one of dynamic type [Type]; on an
    override of any other dynamic type, nil included, it panics. *)
Theorem GetIsolationLevel_returns_iff (s : transaction.Schema)
    (action : string) :
  (exists t, GetIsolationLevel s action = Ok t) <->
  IsolationLevel s !! action = None
  \/ exists t, IsolationLevel s !! action = Some (GoType t).
Proof.
  unfold GetIsolationLevel.
  destruct (IsolationLevel s !! action) as [level|].
  - split.
    + intros [t Ht]. right. destruct level; simpl in Ht; try discriminate.
      eauto.
    + intros [Hnone|[t Ht]]; [discriminate|]. injection Ht as ->.
      simpl. eauto.
  - split; [auto|]. intros _.
    destruct (String.eqb action "read"); eauto.
Qed.

(** The bridge never blocks on its own stop signal: whatever happened
    before the select and whichever case it takes, the send on [stopChan]
    finds the one slot of the channel free. *)
Theorem watch_never_blocks_on_stop (env : Environment) (call : FunctionCall)
    (sched : Schedule) (r : WatchResult) :
  gohan_sync_watch env call sched = Some r -> outcome r <> Blocked.
Proof.
  unfold gohan_sync_watch.
  destruct (watch_arguments env call) as [[[path timeoutMsec] revision]|o] eqn:Hargs.
  - set (st := run_env (before sched) (watch_start path timeoutMsec revision)).
    assert (Hstop : stopChan st = []) by by apply run_env_stopChan_empty.
    unfold select_watch, send_stop, chan_send. simpl. rewrite Hstop. simpl.
    intros Hres.
    destruct (chosen sched); repeat case_match; simplify_eq; simpl; done.
  - intros [= <-]. simpl.
    unfold watch_arguments, VerifyCallArguments, ThrowOttoException, bind, ret
      in Hargs.
    repeat case_match; simplify_eq; done.
Qed.

Lemma watch_never_blocks_on_stop_witness :
  Return NullValue <> Blocked.
Proof.
  apply (watch_never_blocks_on_stop example_env (watch_call "/config" 1000 0)
           {| before := [InterruptArrives InterruptReturns];
              chosen := CaseInterrupt |}
           {| outcome := Return NullValue;
              dispatched := [SyncWatch "/config" 0];
              final := Some (set_stopChan [true]
                               (watch_start "/config" 1000 0)) |}).
  reflexivity.
Defined.

End Returns.
